(** * EncryptionSetup: accumulation and replay of the bootstrap side effects

    A shallow embedding of [src/crypto/EncryptionSetup.js] (matrix-js-sdk):
    the [EncryptionSetupBuilder] with its three stores
    ([AccountDataClientAdapter], [CrossSigningCallbacks],
    [SSSSCryptoCallbacks]) and the [EncryptionSetupOperation] it builds.

    JavaScript objects that the source shares between two owners (the ES6
    [Map] of pending account data) live in an explicit store and are named
    by reference; everything else is passed by value. *)

From stdpp Require Import gmap strings list fin_maps.
From Stdlib Require Import ZArith.
From Stdlib.Strings Require Import Byte.

Set Default Proof Using "Type".
Set Warnings "-register-all".
Set Warnings "-clear-no-such-hyp".
Open Scope string_scope.
Open Scope list_scope.

(** ** JavaScript values *)

(** The JSON-like values that account-data contents range over, together
    with [undefined] (what [Map.prototype.get] and a property read answer
    for a missing key). Numbers are the integer-valued ones. *)
Inductive JsValue : Type :=
| JUndefined
| JNull
| JBool (b : bool)
| JNum (n : Z)
| JStr (s : string)
| JArr (items : list JsValue)
| JObj (props : list (string * JsValue)).

(** ECMAScript ToBoolean, as used by [if (x)]: [undefined], [null],
    [false], [0] and the empty string are falsy, every object is truthy. *)
Definition truthy (v : JsValue) : bool :=
  match v with
  | JUndefined => false
  | JNull => false
  | JBool b => b
  | JNum n => negb (n =? 0)%Z
  | JStr s => match s with EmptyString => false | String _ _ => true end
  | JArr _ => true
  | JObj _ => true
  end.

(** How the evaluation of an expression ends: with a value, or with an
    exception thrown. The only exception met here is a [TypeError]. *)
Inductive JsException : Type :=
| JsTypeError.

Inductive Completion (A : Type) : Type :=
| Returns (a : A)
| Throws (e : JsException).
Arguments Returns {A} a.
Arguments Throws {A} e.

(** The property names of [Object.prototype] (ECMAScript, Annex B
    included): what every plain object inherits. Each of them holds a
    function, but for "__proto__", whose read on a plain object answers
    [Object.prototype] itself. *)
Definition Object_prototype_names : list string :=
  ["constructor"; "__defineGetter__"; "__defineSetter__"; "hasOwnProperty";
   "__lookupGetter__"; "__lookupSetter__"; "isPrototypeOf"; "propertyIsEnumerable";
   "toString"; "valueOf"; "__proto__"; "toLocaleString"].

(** What the read [o[name]] of a plain object finds: the value of an own
    property, or a value inherited from [Object.prototype] (truthy, and
    not an object of the application), or [undefined]. *)
Inductive PropertyValue (A : Type) : Type :=
| OwnValue (v : A)
| InheritedValue
| NoValue.
Arguments OwnValue {A} v.
Arguments InheritedValue {A}.
Arguments NoValue {A}.

(** [o[name]] on a plain object [o] given by its own properties: the
    lookup goes on to the prototype when [o] has no own property of that
    name. *)
Definition Object_get {A : Type} (o : gmap string A) (name : string) : PropertyValue A :=
  match o !! name with
  | Some v => OwnValue v
  | None => if decide (name ∈ Object_prototype_names) then InheritedValue else NoValue
  end.

(** A private key is a [Uint8Array]: an object, hence always truthy. *)
Definition PrivateKey : Type := list byte.

(** The state of a settled promise. *)
Inductive Promise (A : Type) : Type :=
| Fulfilled (a : A)
| Rejected (reason : JsValue).
Arguments Fulfilled {A} a.
Arguments Rejected {A} reason.

(** [Promise.resolve(v)] for a value [v] that is not a thenable. *)
Definition Promise_resolve {A : Type} (v : A) : Promise A := Fulfilled v.

(** ** ES6 [Map] with string keys

    Entries are kept in insertion order, which is the order [for ... of]
    visits them in. [set] on a key that is present replaces the value where
    the entry stands; on a new key it appends. *)
Module JsMap.

Definition t (V : Type) : Type := list (string * V).

Definition empty {V : Type} : t V := [].

Fixpoint get {V : Type} (m : t V) (key : string) : option V :=
  match m with
  | [] => None
  | (k, v) :: m' => if decide (k = key) then Some v else get m' key
  end.

Fixpoint set {V : Type} (m : t V) (key : string) (value : V) : t V :=
  match m with
  | [] => [(key, value)]
  | (k, v) :: m' =>
      if decide (k = key) then (k, value) :: m' else (k, v) :: set m' key value
  end.

(** The iteration sequence of the map ([for (const [k, v] of m)]). *)
Definition entries {V : Type} (m : t V) : list (string * V) := m.

Definition keys {V : Type} (m : t V) : list string := m.*1.

(** Every map built from [empty] by [set] has pairwise distinct keys. *)
Definition wf {V : Type} (m : t V) : Prop := NoDup (keys m).

End JsMap.

(** [m.get(k)] as a JavaScript expression: [undefined] when [k] is missing. *)
Definition Map_get (m : JsMap.t JsValue) (key : string) : JsValue :=
  default JUndefined (JsMap.get m key).

(** [Object.keys(o)] of an object given by its own enumerable properties,
    in enumeration order. *)
Definition Object_keys {V : Type} (o : list (string * V)) : list string := o.*1.

(** ** MatrixEvent *)

(** Modelled from the spec: the class [MatrixEvent] of [../models/event] is
    not part of the sources; section 6 of the specification describes it as
    an object exposing a [getContent()]-style accessor, and the adapter
    builds one from a [{type, content}] literal. *)
Record MatrixEvent : Type := mkMatrixEvent {
  getType : string;
  getContent : JsValue
}.

(** ** The runtime: object store, event emitters and the microtask queue *)

(** References to heap objects. *)
Abbreviation loc := nat (only parsing).

(** A listener registered with [EventEmitter.on]: a passive observer that
    records what it is called with and is named by a number. *)
Abbreviation Listener := nat (only parsing).

(** A job of the microtask queue. The only closure the source schedules is
    the one of [AccountDataClientAdapter.setAccountData]; it captures
    [this], [type] and [content]. *)
Inductive Job : Type :=
| EmitAccountData (emitter : loc) (type : string) (content : JsValue).

(** - [rt_maps]: the [Map] objects allocated by [new Map()], by reference;
    - [rt_emitters]: per [EventEmitter] instance, the listeners of
      "accountData" in registration order;
    - [rt_microtasks]: the pending promise jobs, oldest first;
    - [rt_delivered]: every listener invocation so far, oldest first. *)
Record Runtime : Type := mkRuntime {
  rt_maps : gmap nat (list (string * JsValue));
  rt_emitters : gmap nat (list nat);
  rt_microtasks : list Job;
  rt_delivered : list (nat * MatrixEvent)
}.

Definition empty_runtime : Runtime :=
  {| rt_maps := ∅; rt_emitters := ∅; rt_microtasks := []; rt_delivered := [] |}.

Definition map_at (rt : Runtime) (r : loc) : JsMap.t JsValue :=
  default JsMap.empty (rt_maps rt !! r).

Definition listeners_at (rt : Runtime) (e : loc) : list Listener :=
  default [] (rt_emitters rt !! e).

(** [new Map()] *)
Definition new_Map (rt : Runtime) : loc * Runtime :=
  let r := fresh (dom (rt_maps rt)) in
  (r,
   {| rt_maps := <[r := JsMap.empty]> (rt_maps rt);
      rt_emitters := rt_emitters rt;
      rt_microtasks := rt_microtasks rt;
      rt_delivered := rt_delivered rt |}).

(** The [EventEmitter] constructor ([super()] in the adapter). *)
Definition new_EventEmitter (rt : Runtime) : loc * Runtime :=
  let e := fresh (dom (rt_emitters rt)) in
  (e,
   {| rt_maps := rt_maps rt;
      rt_emitters := <[e := []]> (rt_emitters rt);
      rt_microtasks := rt_microtasks rt;
      rt_delivered := rt_delivered rt |}).

(** [r.set(key, value)] on the [Map] object [r]. *)
Definition Map_set (r : loc) (key : string) (value : JsValue) (rt : Runtime) : Runtime :=
  {| rt_maps := <[r := JsMap.set (map_at rt r) key value]> (rt_maps rt);
     rt_emitters := rt_emitters rt;
     rt_microtasks := rt_microtasks rt;
     rt_delivered := rt_delivered rt |}.

(** [Promise.resolve().then(job)]: the promise is already fulfilled, so the
    reaction is put at the back of the microtask queue at once. *)
Definition enqueue_microtask (j : Job) (rt : Runtime) : Runtime :=
  {| rt_maps := rt_maps rt;
     rt_emitters := rt_emitters rt;
     rt_microtasks := rt_microtasks rt ++ [j];
     rt_delivered := rt_delivered rt |}.

(** [emitter.on("accountData", l)] *)
Definition on (e : loc) (l : Listener) (rt : Runtime) : Runtime :=
  {| rt_maps := rt_maps rt;
     rt_emitters := <[e := listeners_at rt e ++ [l]]> (rt_emitters rt);
     rt_microtasks := rt_microtasks rt;
     rt_delivered := rt_delivered rt |}.

(** [emitter.emit("accountData", event)]: calls the listeners registered at
    that moment, synchronously, in registration order. *)
Definition emit (e : loc) (event : MatrixEvent) (rt : Runtime) : Runtime :=
  {| rt_maps := rt_maps rt;
     rt_emitters := rt_emitters rt;
     rt_microtasks := rt_microtasks rt;
     rt_delivered := rt_delivered rt ++ map (fun l => (l, event)) (listeners_at rt e) |}.

(** The body of the arrow function scheduled by [setAccountData]. *)
Definition run_job (rt : Runtime) (j : Job) : Runtime :=
  match j with
  | EmitAccountData e type content =>
      let event := mkMatrixEvent type content in
      emit e event rt
  end.

(** The microtask checkpoint at the end of a synchronous step: the queue is
    emptied oldest job first. Listeners are passive, so no job adds one. *)
Definition run_microtasks (rt : Runtime) : Runtime :=
  fold_left run_job (rt_microtasks rt)
    {| rt_maps := rt_maps rt;
       rt_emitters := rt_emitters rt;
       rt_microtasks := [];
       rt_delivered := rt_delivered rt |}.

(** What listener [l] has been called with so far. *)
Definition deliveries_to (l : Listener) (rt : Runtime) : list MatrixEvent :=
  (filter (fun d => d.1 = l) (rt_delivered rt)).*2.

(** ** AccountDataClientAdapter *)
Module AccountDataClientAdapter.

(** [_events] is the emitter state set up by [super()], [_existingValues]
    the pre-existing account data (a plain object from type to event,
    given by its own properties), [_values] the reference to the [Map] of
    pending writes. *)
Record t : Type := mk {
  _events : nat;
  _existingValues : gmap string MatrixEvent;
  _values : nat
}.

Definition new (accountData : gmap string MatrixEvent) (rt : Runtime) : t * Runtime :=
  let '(e, rt) := new_EventEmitter rt in
  let '(values, rt) := new_Map rt in
  ({| _events := e; _existingValues := accountData; _values := values |}, rt).

(** [this._existingValues[type]] reads through the prototype chain. An
    event found there is an object, hence truthy. A value inherited from
    [Object.prototype] is truthy as well, but has no [getContent]: the
    call [existingValue.getContent()] throws a [TypeError]. *)
Definition getAccountData (this : t) (type : string) (rt : Runtime) : Completion JsValue :=
  let modifiedValue := Map_get (map_at rt (_values this)) type in
  if truthy modifiedValue then Returns modifiedValue
  else
    let existingValue := Object_get (_existingValues this) type in
    match existingValue with
    | OwnValue ev => Returns (getContent ev)
    | InheritedValue => Throws JsTypeError
    | NoValue => Returns JNull
    end.

(** The argument of [Promise.resolve] is evaluated first: when
    [getAccountData] throws, the exception leaves this method as it is,
    and no promise is made. *)
Definition getAccountDataFromServer (this : t) (type : string) (rt : Runtime)
  : Completion (Promise JsValue) :=
  match getAccountData this type rt with
  | Returns content => Returns (Promise_resolve content)
  | Throws e => Throws e
  end.

(** The returned promise is left out: it settles only after the job ran. *)
Definition setAccountData (this : t) (type : string) (content : JsValue) (rt : Runtime) : Runtime :=
  let rt := Map_set (_values this) type content rt in
  enqueue_microtask (EmitAccountData (_events this) type content) rt.

(** The pending entries in iteration order. *)
Definition pending (this : t) (rt : Runtime) : list (string * JsValue) :=
  JsMap.entries (map_at rt (_values this)).

End AccountDataClientAdapter.

(** What [getAccountData] falls back to when no truthy value is pending:
    the content of the pre-existing event of that type; a [TypeError] when
    there is none and the type is a name inherited from
    [Object.prototype]; [null] otherwise. *)
Definition existing_content (a : AccountDataClientAdapter.t) (type : string)
  : Completion JsValue :=
  match Object_get (AccountDataClientAdapter._existingValues a) type with
  | OwnValue ev => Returns (getContent ev)
  | InheritedValue => Throws JsTypeError
  | NoValue => Returns JNull
  end.

(** ** CrossSigningCallbacks *)
Module CrossSigningCallbacks.

(** [privateKeys] is a [Map] that is only read with [get] and written with
    [set], and is owned by this object alone. *)
Record t : Type := mk {
  privateKeys : gmap string PrivateKey
}.

Definition new : t := {| privateKeys := ∅ |}.

Definition getCrossSigningKey (this : t) (type : string) (_expectedPubkey : JsValue)
  : Promise (option PrivateKey) :=
  Promise_resolve (privateKeys this !! type).

Definition getCrossSigningKeyCache (this : t) (type : string) (expectedPublicKey : JsValue)
  : Promise (option PrivateKey) :=
  getCrossSigningKey this type expectedPublicKey.

Definition storeCrossSigningKeyCache (this : t) (type : string) (key : PrivateKey)
  : Promise unit * t :=
  (Promise_resolve tt, {| privateKeys := <[type := key]> (privateKeys this) |}).

(** [Object.entries(keys)] enumerates the own properties of the argument;
    the loop body is one [set] per entry, with no suspension point. *)
Definition saveCrossSigningKeys (this : t) (keys : gmap string PrivateKey) : t :=
  fold_left
    (fun acc '(type, privateKey) => {| privateKeys := <[type := privateKey]> (privateKeys acc) |})
    (map_to_list keys) this.

End CrossSigningCallbacks.

(** ** SSSSCryptoCallbacks *)
Module SSSSCryptoCallbacks.

Record t : Type := mk {
  _privateKeys : gmap string PrivateKey
}.

Definition new : t := {| _privateKeys := ∅ |}.

(** The loop of [getSecretStorageKey] over [Object.keys(keys)]; falling off
    its end answers [undefined], here [None]. The test [if (privateKey)]
    succeeds exactly when [get] found a key: a [Uint8Array] is truthy,
    [undefined] is not. *)
Fixpoint getSecretStorageKey_loop (this : t) (keyIds : list string)
  : option (string * PrivateKey) :=
  match keyIds with
  | [] => None
  | keyId :: rest =>
      match _privateKeys this !! keyId with
      | Some privateKey => Some (keyId, privateKey)
      | None => getSecretStorageKey_loop this rest
      end
  end.

(** The first argument is destructured as [{ keys }]: an object from key id
    to key description, given by its own properties in enumeration order. *)
Definition getSecretStorageKey (this : t) (keys : list (string * JsValue)) (name : string)
  : option (string * PrivateKey) :=
  getSecretStorageKey_loop this (Object_keys keys).

Definition addPrivateKey (this : t) (keyId : string) (privKey : PrivateKey) : t :=
  {| _privateKeys := <[keyId := privKey]> (_privateKeys this) |}.

End SSSSCryptoCallbacks.

(** ** The network client and asynchronous code *)

(** What a run of asynchronous code leaves behind: the state of the remote
    side, and the requests issued so far, oldest first. *)
Record NetState (W : Type) : Type := mkNetState {
  remote : W;
  calls : list (string * JsValue)
}.
Arguments mkNetState {W} remote calls.
Arguments remote {W} _.
Arguments calls {W} _.

(** An [async] computation: it settles to a value or to a rejection. *)
Definition Net (W A : Type) : Type := NetState W -> Promise A * NetState W.

Definition net_ret {W A : Type} (a : A) : Net W A :=
  fun s => (Fulfilled a, s).

(** [await c] followed by [k]: the continuation runs only once [c] has
    fulfilled, on the state [c] left; a rejection is thrown at the [await]
    and, not being caught, rejects the whole computation. *)
Definition net_await {W A B : Type} (c : Net W A) (k : A -> Net W B) : Net W B :=
  fun s =>
    match c s with
    | (Fulfilled a, s') => k a s'
    | (Rejected reason, s') => (Rejected reason, s')
    end.

Notation "'await' x <- c ;; k" := (net_await c (fun x => k))
  (at level 100, c at next level, x pattern, right associativity).

Module MatrixClient.

(** The one method of the client that the operation uses. How the remote
    side answers is up to the client. *)
Record t (W : Type) : Type := mk {
  setAccountData : string -> JsValue -> W -> Promise unit * W
}.
Arguments mk {W} setAccountData.
Arguments setAccountData {W} _ _ _ _.

(** The call [baseApis.setAccountData(type, content)], recorded. *)
Definition call_setAccountData {W : Type} (baseApis : t W) (type : string) (content : JsValue)
  : Net W unit :=
  fun s =>
    let '(p, w) := setAccountData baseApis type content (remote s) in
    (p, {| remote := w; calls := calls s ++ [(type, content)] |}).

End MatrixClient.

Record Crypto (W : Type) : Type := mkCrypto {
  _baseApis : MatrixClient.t W
}.
Arguments mkCrypto {W} _baseApis.
Arguments _baseApis {W} _.

(** ** EncryptionSetupOperation *)
Module EncryptionSetupOperation.

(** [_accountData] is a reference to a [Map], or [None] for a falsy
    argument ([null], [undefined]). *)
Record t : Type := mk {
  _accountData : option nat;
  _crossSigningKeys : JsValue;
  _keyBackupInfo : JsValue;
  _keySignatures : JsValue
}.

Definition new (accountData : option loc) (crossSigningKeys keyBackupInfo keySignatures : JsValue) : t :=
  {| _accountData := accountData;
     _crossSigningKeys := crossSigningKeys;
     _keyBackupInfo := keyBackupInfo;
     _keySignatures := keySignatures |}.

(** [for (const [type, content] of entries) { await baseApis.setAccountData(type, content); }] *)
Fixpoint for_of_await {W : Type} (baseApis : MatrixClient.t W) (entries : list (string * JsValue))
  : Net W unit :=
  match entries with
  | [] => net_ret tt
  | (type, content) :: rest =>
      await _ <- MatrixClient.call_setAccountData baseApis type content ;;
      for_of_await baseApis rest
  end.

(** [rt] is the object store while [apply] runs; nothing else writes to the
    [Map] in the meantime. *)
Definition apply {W : Type} (this : t) (crypto : Crypto W) (rt : Runtime) : Net W unit :=
  let baseApis := _baseApis crypto in
  match _accountData this with
  | Some accountData => for_of_await baseApis (JsMap.entries (map_at rt accountData))
  | None => net_ret tt
  end.

(** The entries that [apply] iterates over. *)
Definition replay_entries (this : t) (rt : Runtime) : list (string * JsValue) :=
  match _accountData this with
  | Some accountData => JsMap.entries (map_at rt accountData)
  | None => []
  end.

End EncryptionSetupOperation.

(** ** EncryptionSetupBuilder *)
Module EncryptionSetupBuilder.

Record t : Type := mk {
  accountDataClientAdapter : AccountDataClientAdapter.t;
  crossSigningCallbacks : CrossSigningCallbacks.t;
  ssssCryptoCallbacks : SSSSCryptoCallbacks.t;
  _crossSigningKeys : JsValue;
  _keySignatures : JsValue;
  _keyBackupInfo : JsValue
}.

Definition new (accountData : gmap string MatrixEvent) (rt : Runtime) : t * Runtime :=
  let '(adapter, rt) := AccountDataClientAdapter.new accountData rt in
  ({| accountDataClientAdapter := adapter;
      crossSigningCallbacks := CrossSigningCallbacks.new;
      ssssCryptoCallbacks := SSSSCryptoCallbacks.new;
      _crossSigningKeys := JNull;
      _keySignatures := JNull;
      _keyBackupInfo := JNull |}, rt).

Definition setAccountData (this : t) (type : string) (content : JsValue) (rt : Runtime) : Runtime :=
  AccountDataClientAdapter.setAccountData (accountDataClientAdapter this) type content rt.

(** The operation receives the adapter's [_values] itself: the reference,
    not a copy of the [Map] behind it. *)
Definition buildOperation (this : t) : EncryptionSetupOperation.t :=
  let accountData := AccountDataClientAdapter._values (accountDataClientAdapter this) in
  EncryptionSetupOperation.new
    (Some accountData)
    (_crossSigningKeys this)
    (_keyBackupInfo this)
    (_keySignatures this).

End EncryptionSetupBuilder.

(** ** One synchronous step of a caller of the adapter *)

(** What a caller does with the adapter between two suspension points: it
    writes account data and registers listeners. *)
Inductive SyncOp : Type :=
| OpSetAccountData (type : string) (content : JsValue)
| OpOn (l : Listener).

Definition run_op (a : AccountDataClientAdapter.t) (rt : Runtime) (op : SyncOp) : Runtime :=
  match op with
  | OpSetAccountData type content => AccountDataClientAdapter.setAccountData a type content rt
  | OpOn l => on (AccountDataClientAdapter._events a) l rt
  end.

Definition run_sync (a : AccountDataClientAdapter.t) (ops : list SyncOp) (rt : Runtime) : Runtime :=
  fold_left (run_op a) ops rt.

(** A whole turn: the synchronous step runs to completion, then the
    microtask queue is emptied before anything else gets to run. *)
Definition turn (a : AccountDataClientAdapter.t) (ops : list SyncOp) (rt : Runtime) : Runtime :=
  run_microtasks (run_sync a ops rt).

Definition writes_of (ops : list SyncOp) : list (string * JsValue) :=
  flat_map (fun op => match op with OpSetAccountData t c => [(t, c)] | OpOn _ => [] end) ops.

Definition subscriptions_of (ops : list SyncOp) : list Listener :=
  flat_map (fun op => match op with OpSetAccountData _ _ => [] | OpOn l => [l] end) ops.

(** The job that a write schedules, and the event that the job emits. *)
Definition job_of (a : AccountDataClientAdapter.t) (w : string * JsValue) : Job :=
  EmitAccountData (AccountDataClientAdapter._events a) w.1 w.2.

(** [new MatrixEvent({type, content})] *)
Definition event_of (w : string * JsValue) : MatrixEvent := mkMatrixEvent w.1 w.2.

(** The requests that one run of [c] from [s] issued. *)
Definition issued_by {W A : Type} (c : Net W A) (s : NetState W) : list (string * JsValue) :=
  drop (length (calls s)) (calls (c s).2).

(** The remote state after the given writes, each made on the state the
    one before it left. *)
Definition remote_after {W : Type} (baseApis : MatrixClient.t W)
    (entries : list (string * JsValue)) (w : W) : W :=
  fold_left (fun w '(type, content) => (MatrixClient.setAccountData baseApis type content w).2)
    entries w.

(** A run of writes on the builder, oldest first. *)
Definition setAccountData_all (b : EncryptionSetupBuilder.t) (writes : list (string * JsValue))
    (rt : Runtime) : Runtime :=
  fold_left (fun rt '(type, content) => EncryptionSetupBuilder.setAccountData b type content rt)
    writes rt.

(** ** Test fixtures *)

(** A recording fake of the network client. The remote side is the
    account data stored on the server; a write of the type [fail_on], if
    any, is rejected and stores nothing. *)
Definition fake_client (fail_on : option string) : MatrixClient.t (JsMap.t JsValue) :=
  MatrixClient.mk (fun type content server =>
    if decide (fail_on = Some type)
    then (Rejected (JStr "M_UNKNOWN"), server)
    else (Fulfilled tt, JsMap.set server type content)).

Definition fake_crypto (fail_on : option string) : Crypto (JsMap.t JsValue) :=
  mkCrypto (fake_client fail_on).

Definition fresh_net : NetState (JsMap.t JsValue) := mkNetState JsMap.empty [].

(** The object [{"a": n}]. *)
Definition obj_a (n : Z) : JsValue := JObj [("a", JNum n)].

Definition obj_b (n : Z) : JsValue := JObj [("b", JNum n)].

(** Pre-existing account data [{"m.foo": {"a": 1}}]. *)
Definition existing_foo : gmap string MatrixEvent :=
  {[ "m.foo" := mkMatrixEvent "m.foo" (obj_a 1) ]}.

(** Some key material. *)
Definition key_1 : PrivateKey := [x01; x02; x03].

Definition key_2 : PrivateKey := [x0a; x0b].

(** A secret-storage store that holds a key for "keyId2" only. *)
Definition ssss_keyId2 : SSSSCryptoCallbacks.t :=
  SSSSCryptoCallbacks.addPrivateKey SSSSCryptoCallbacks.new "keyId2" key_2.

(** A builder constructed over [existing_foo] in an empty store. *)
Definition builder_foo : EncryptionSetupBuilder.t :=
  (EncryptionSetupBuilder.new existing_foo empty_runtime).1.

Definition runtime_foo : Runtime :=
  (EncryptionSetupBuilder.new existing_foo empty_runtime).2.

Definition adapter_foo : AccountDataClientAdapter.t :=
  EncryptionSetupBuilder.accountDataClientAdapter builder_foo.

(** A builder constructed with no pre-existing account data. *)
Definition builder_empty : EncryptionSetupBuilder.t :=
  (EncryptionSetupBuilder.new ∅ empty_runtime).1.

Definition runtime_empty : Runtime :=
  (EncryptionSetupBuilder.new ∅ empty_runtime).2.

Definition adapter_empty : AccountDataClientAdapter.t :=
  EncryptionSetupBuilder.accountDataClientAdapter builder_empty.

(** ** eventMapperFor (event-mapper.ts)

    The mapper works on objects whose classes are not part of the sources
    (the event it constructs, the client, the room). They are taken as
    given: an event by what its accessors answer, the client by what
    [getRoom] answers, a room by its id and its map of threads. What the
    mapper does to them is recorded as the sequence of its calls. *)
Module EventMapper.

(** [MapperOpts]; both fields are optional ([None] is [undefined]). *)
Record MapperOpts : Type := mkMapperOpts {
  preventReEmit : option bool;
  decrypt : option bool
}.

(** The event that [new MatrixEvent(plainOldJsObject)] built. *)
Record Event : Type := mkEvent {
  getId : string;
  getRoomId : option string;
  isThreadRoot : bool;
  isEncrypted : bool
}.

(** [threads] is the room's [Map] from event id to thread object. *)
Record Room : Type := mkRoom {
  roomId : string;
  threads : gmap string nat
}.

(** [getRoom] answers a room or [null]. *)
Record Client : Type := mkClient {
  getRoom : option string -> option Room
}.

(** A thread handed to [event.setThread]: one found in [room.threads], or
    the one that [room.createThread] has just returned. *)
Inductive ThreadRef : Type :=
| ExistingThread (thread : nat)
| CreatedThread (room : string) (eventId : string).

Inductive Call : Type :=
| Room_createThread (room : string) (eventId : string)
| Event_setThread (eventId : string) (thread : ThreadRef)
| ReEmitter_reEmit (eventId : string) (eventNames : list string)
| Client_decryptEventIfNeeded (eventId : string).

(** [Boolean(v)] of an optional boolean. *)
Definition Boolean (v : option bool) : bool := default false v.

(** [v !== false] of an optional boolean. *)
Definition not_false (v : option bool) : bool :=
  match v with
  | Some false => false
  | _ => true
  end.

Definition eventMapperFor (client : Client) (options : MapperOpts) : Event -> list Call :=
  let preventReEmit := Boolean (preventReEmit options) in
  let decrypt := not_false (decrypt options) in
  fun event =>
    let room := getRoom client (getRoomId event) in
    (match room with
     | Some room =>
         if isThreadRoot event then
           match threads room !! getId event with
           | Some thread => [Event_setThread (getId event) (ExistingThread thread)]
           | None =>
               [Room_createThread (roomId room) (getId event);
                Event_setThread (getId event) (CreatedThread (roomId room) (getId event))]
           end
         else []
     | None => []
     end)
    ++ (if isEncrypted event then
          (if negb preventReEmit
           then [ReEmitter_reEmit (getId event) ["Event.decrypted"]] else [])
          ++ (if decrypt then [Client_decryptEventIfNeeded (getId event)] else [])
        else [])
    ++ (if negb preventReEmit
        then [ReEmitter_reEmit (getId event) ["Event.replaced"; "Event.visibilityChange"]]
        else []).

(** The calls on the room and on the event's thread. *)
Definition is_thread_call (c : Call) : bool :=
  match c with
  | Room_createThread _ _ => true
  | Event_setThread _ _ => true
  | _ => false
  end.

End EventMapper.

(** ** The getters of Thread (models/thread.ts) over its timeline

    [events] is what [this.events] answers: the events of the live
    timeline of the thread's timeline set, oldest first. *)
Module Thread.

Record Event : Type := mkEvent {
  getId : string;
  getRoomId : string;
  isThreadRelation : bool
}.

(** [arr[arr.length - 1]]: [undefined] on an empty array. *)
Definition last_element {A : Type} (arr : list A) : option A := last arr.

Definition threadReplies (events : list Event) : list Event :=
  filter (fun event => isThreadRelation event = true) events.

(** [get lastReply] *)
Definition lastReply (events : list Event) : option Event :=
  last_element (threadReplies events).

(** [get length] *)
Definition length (events : list Event) : nat :=
  List.length (threadReplies events).

(** [get replyToEvent] *)
Definition replyToEvent (events : list Event) : option Event :=
  last_element events.

(** What a getter throws. *)
Inductive Thrown : Type :=
| TypeError.

(** [get roomId]: [events[0].getRoomId()]; on an empty timeline
    [events[0]] is [undefined] and the call throws a [TypeError]. *)
Definition roomId (events : list Event) : Thrown + string :=
  match events with
  | [] => inl TypeError
  | event :: _ => inr (getRoomId event)
  end.

End Thread.

(** ** Helpers for statements about runs of writes *)

(** The types of a run of writes, each listed once, at the place where it
    is first written; [seen] holds the types that are present already. *)
Fixpoint first_writes (seen : list string) (types : list string) : list string :=
  match types with
  | [] => []
  | t :: rest =>
      if decide (t ∈ seen) then first_writes seen rest
      else t :: first_writes (t :: seen) rest
  end.

(** A fake of the network client that rejects the first [budget] writes of
    the type [fail_on] and accepts everything else. The remote side is the
    number of rejections left and the account data stored. *)
Definition flaky_client (fail_on : string) : MatrixClient.t (nat * JsMap.t JsValue) :=
  MatrixClient.mk (fun type content w =>
    if decide (type = fail_on)
    then match w.1 with
         | O => (Fulfilled tt, (O, JsMap.set w.2 type content))
         | S budget => (Rejected (JStr "M_LIMIT_EXCEEDED"), (budget, w.2))
         end
    else (Fulfilled tt, (w.1, JsMap.set w.2 type content))).

(** * Properties *)

(** ** The definitions on small inputs *)

Example JsMap_set_keeps_position :
  JsMap.set (JsMap.set (JsMap.set JsMap.empty "a" 1) "b" 2) "a" 3 = [("a", 3); ("b", 2)].
Proof. reflexivity. Qed.

Example truthy_examples :
  map truthy [JUndefined; JNull; JBool false; JNum 0; JStr EmptyString;
              JBool true; JNum 1; JStr "x"; JArr []; JObj []]
  = [false; false; false; false; false; true; true; true; true; true].
Proof. reflexivity. Qed.

Example builder_new_allocates :
  AccountDataClientAdapter._values adapter_foo = 0
  ∧ AccountDataClientAdapter.pending adapter_foo runtime_foo = []
  ∧ EncryptionSetupOperation._accountData (EncryptionSetupBuilder.buildOperation builder_foo)
    = Some 0.
Proof. split_and!; vm_compute; reflexivity. Qed.

(** The first read of the end-to-end scenario: the pre-existing content. *)
Example getAccountData_existing :
  AccountDataClientAdapter.getAccountData adapter_foo "m.foo" runtime_foo = Returns (obj_a 1)
  ∧ AccountDataClientAdapter.getAccountData adapter_foo "m.bar" runtime_foo = Returns JNull.
Proof. split; vm_compute; reflexivity. Qed.

(** Reads of a plain object: own property, inherited name, neither. *)
Example Object_get_examples :
  Object_get existing_foo "m.foo" = OwnValue (mkMatrixEvent "m.foo" (obj_a 1))
  ∧ Object_get existing_foo "toString" = InheritedValue
  ∧ Object_get existing_foo "m.bar" = NoValue.
Proof. split_and!; vm_compute; reflexivity. Qed.

(** ** Facts about [JsMap] *)
Section JsMapFacts.
Context {V : Type}.
Implicit Types (m : JsMap.t V) (k : string) (v : V).

Lemma JsMap_get_set_eq m k v : JsMap.get (JsMap.set m k v) k = Some v.
Proof.
  induction m as [|[k' v'] m IH]; simpl.
  - by rewrite decide_True.
  - destruct (decide (k' = k)) as [->|Hne]; simpl.
    + by rewrite decide_True.
    + by rewrite decide_False.
Qed.

Lemma JsMap_get_set_ne m k k' v :
  k ≠ k' → JsMap.get (JsMap.set m k v) k' = JsMap.get m k'.
Proof.
  intros Hne. induction m as [|[k0 v0] m IH]; simpl.
  - by rewrite decide_False.
  - destruct (decide (k0 = k)) as [->|Hk]; simpl.
    + by rewrite !decide_False.
    + by rewrite IH.
Qed.

Lemma JsMap_get_None m k : JsMap.get m k = None ↔ k ∉ JsMap.keys m.
Proof.
  unfold JsMap.keys. induction m as [|[k' v'] m IH]; simpl.
  - split; [intros _; apply not_elem_of_nil | done].
  - rewrite not_elem_of_cons. destruct (decide (k' = k)) as [->|Hne].
    + split; [done | intros [? _]; done].
    + rewrite IH. split; [intros ?; split; [congruence | done] | intros [_ ?]; done].
Qed.

Lemma JsMap_set_fresh m k v : k ∉ JsMap.keys m → JsMap.set m k v = m ++ [(k, v)].
Proof.
  unfold JsMap.keys. induction m as [|[k' v'] m IH]; simpl; [done|].
  rewrite not_elem_of_cons. intros [Hne Hnotin].
  rewrite decide_False by congruence. by rewrite IH.
Qed.

Lemma JsMap_keys_set_present m k v :
  k ∈ JsMap.keys m → JsMap.keys (JsMap.set m k v) = JsMap.keys m.
Proof.
  unfold JsMap.keys. induction m as [|[k' v'] m IH]; simpl.
  - intros H. by apply elem_of_nil in H.
  - destruct (decide (k' = k)) as [->|Hne]; csimpl; [done|].
    rewrite elem_of_cons. intros [?|Hin]; [congruence|]. f_equal. by apply IH.
Qed.

Lemma JsMap_set_wf m k v : JsMap.wf m → JsMap.wf (JsMap.set m k v).
Proof.
  unfold JsMap.wf. intros Hwf.
  destruct (decide (k ∈ JsMap.keys m)) as [Hin|Hnotin].
  - by rewrite JsMap_keys_set_present.
  - rewrite JsMap_set_fresh by done. unfold JsMap.keys in *.
    rewrite fmap_app. simpl. apply NoDup_app. split; [done|].
    split; [|apply NoDup_singleton].
    intros x Hx Hx'. apply list_elem_of_singleton in Hx'. by subst.
Qed.

(** After a write of [k], the map splits around the one entry of [k]; a
    second write of [k] replaces the value where that entry stands. *)
Lemma JsMap_set_split m k v :
  JsMap.wf m →
  ∃ pre post,
    JsMap.set m k v = pre ++ (k, v) :: post
    ∧ (k ∉ JsMap.keys pre) ∧ (k ∉ JsMap.keys post)
    ∧ ∀ v', JsMap.set (JsMap.set m k v) k v' = pre ++ (k, v') :: post.
Proof.
  unfold JsMap.wf, JsMap.keys. induction m as [|[k' v'] m IH]; simpl; intros Hwf.
  - exists [], []. simpl. split_and!; try apply not_elem_of_nil; [done|].
    intros v2. by rewrite decide_True.
  - apply NoDup_cons in Hwf as [Hk' Hwf].
    destruct (decide (k' = k)) as [->|Hne]; simpl.
    + exists [], m. simpl. split_and!; [done | apply not_elem_of_nil | done |].
      intros v2. by rewrite decide_True.
    + destruct (IH Hwf) as (pre & post & Heq & Hpre & Hpost & Hagain).
      exists ((k', v') :: pre), post. rewrite Heq. csimpl. split_and!; [done| |done|].
      * rewrite not_elem_of_cons. split; [congruence | done].
      * intros v2. rewrite decide_False by done. rewrite <- Heq. by rewrite Hagain.
Qed.

End JsMapFacts.

(** ** Facts about the object store *)

Lemma map_at_Map_set_eq r k v rt :
  map_at (Map_set r k v rt) r = JsMap.set (map_at rt r) k v.
Proof. unfold map_at, Map_set. simpl. by rewrite lookup_insert_eq. Qed.

Lemma map_at_Map_set_ne r r' k v rt :
  r ≠ r' → map_at (Map_set r k v rt) r' = map_at rt r'.
Proof. intros Hne. unfold map_at, Map_set. simpl. by rewrite lookup_insert_ne. Qed.

Lemma pending_setAccountData a t c rt :
  AccountDataClientAdapter.pending a (AccountDataClientAdapter.setAccountData a t c rt)
  = JsMap.set (AccountDataClientAdapter.pending a rt) t c.
Proof.
  unfold AccountDataClientAdapter.pending, AccountDataClientAdapter.setAccountData,
    JsMap.entries, enqueue_microtask, map_at. simpl.
  by rewrite lookup_insert_eq.
Qed.

Lemma getAccountData_unfold a t rt :
  AccountDataClientAdapter.getAccountData a t rt =
  match JsMap.get (AccountDataClientAdapter.pending a rt) t with
  | Some c => if truthy c then Returns c else existing_content a t
  | None => existing_content a t
  end.
Proof.
  unfold AccountDataClientAdapter.getAccountData, AccountDataClientAdapter.pending,
    JsMap.entries, Map_get, existing_content.
  destruct (JsMap.get _ t) as [c|]; simpl; [|done].
  by destruct (truthy c).
Qed.

Lemma getAccountData_after_set a t c rt :
  AccountDataClientAdapter.getAccountData a t (AccountDataClientAdapter.setAccountData a t c rt)
  = if truthy c then Returns c else existing_content a t.
Proof.
  rewrite getAccountData_unfold, pending_setAccountData, JsMap_get_set_eq. done.
Qed.

Lemma getAccountDataFromServer_unfold a t rt :
  AccountDataClientAdapter.getAccountDataFromServer a t rt =
  match AccountDataClientAdapter.getAccountData a t rt with
  | Returns content => Returns (Fulfilled content)
  | Throws e => Throws e
  end.
Proof. reflexivity. Qed.

(** Where the fallback is the one the code means: the type has an own
    pre-existing entry, or it is not a name inherited from
    [Object.prototype]. *)
Lemma existing_content_own a t ev :
  AccountDataClientAdapter._existingValues a !! t = Some ev →
  existing_content a t = Returns (getContent ev).
Proof. unfold existing_content, Object_get. by intros ->. Qed.

Lemma existing_content_none a t :
  AccountDataClientAdapter._existingValues a !! t = None →
  t ∉ Object_prototype_names →
  existing_content a t = Returns JNull.
Proof. unfold existing_content, Object_get. intros -> Hnotin. by rewrite decide_False. Qed.

Lemma existing_content_inherited a t :
  AccountDataClientAdapter._existingValues a !! t = None →
  t ∈ Object_prototype_names →
  existing_content a t = Throws JsTypeError.
Proof. unfold existing_content, Object_get. intros -> Hin. by rewrite decide_True. Qed.

(** ** The account-data overlay: reads *)

(** C4, as the claim states it, fails: after writing the content [false]
    for a type with no pre-existing entry, the read answers [null], not
    the content written. *)
Lemma getAccountData_falsy_write_counterexample :
  Map_get (map_at (AccountDataClientAdapter.setAccountData adapter_empty "m.foo" (JBool false) runtime_empty)
             (AccountDataClientAdapter._values adapter_empty)) "m.foo" = JBool false
  ∧ AccountDataClientAdapter.getAccountData adapter_empty "m.foo"
      (AccountDataClientAdapter.setAccountData adapter_empty "m.foo" (JBool false) runtime_empty)
    = Returns JNull
  ∧ JNull ≠ JBool false.
Proof. split_and!; [vm_compute; reflexivity | vm_compute; reflexivity | discriminate]. Qed.

(** C4 (amended): for every type [t], a read answers the pending value of
    [t] when one is recorded and it is truthy, whatever the pre-existing
    data holds (nothing is merged, and the pre-existing data is not even
    looked at): right after a write of a truthy content [c], every object
    among them, the read answers [c], with no network call in between. For
    a type never written, the read answers the content of the pre-existing
    entry when there is one; when there is none and the type is not a name
    that the pre-existing object inherits from [Object.prototype], it
    answers [null]. *)
Theorem getAccountData_pending_shadows_existing
    (a : AccountDataClientAdapter.t) (rt : Runtime) (t : string) (c : JsValue) :
  truthy c = true →
  AccountDataClientAdapter.getAccountData a t (AccountDataClientAdapter.setAccountData a t c rt)
    = Returns c
  ∧ (∀ rt', JsMap.get (AccountDataClientAdapter.pending a rt') t = Some c →
       AccountDataClientAdapter.getAccountData a t rt' = Returns c)
  ∧ (∀ rt' ev, JsMap.get (AccountDataClientAdapter.pending a rt') t = None →
       AccountDataClientAdapter._existingValues a !! t = Some ev →
       AccountDataClientAdapter.getAccountData a t rt' = Returns (getContent ev))
  ∧ (∀ rt', JsMap.get (AccountDataClientAdapter.pending a rt') t = None →
       AccountDataClientAdapter._existingValues a !! t = None →
       t ∉ Object_prototype_names →
       AccountDataClientAdapter.getAccountData a t rt' = Returns JNull).
Proof.
  intros Hc. split_and!.
  - by rewrite getAccountData_after_set, Hc.
  - intros rt' Hget. by rewrite getAccountData_unfold, Hget, Hc.
  - intros rt' ev Hget Hown. rewrite getAccountData_unfold, Hget. by apply existing_content_own.
  - intros rt' Hget Hnone Hnotin. rewrite getAccountData_unfold, Hget.
    by apply existing_content_none.
Qed.

(** Over [{"m.foo": {"a": 1}}]: a write of [{"a": 2}] for "m.foo" is read
    back; before it, "m.foo" reads as [{"a": 1}] and "m.bar" as [null]. *)
Lemma getAccountData_pending_shadows_existing_witness :
  AccountDataClientAdapter.getAccountData adapter_foo "m.foo"
    (AccountDataClientAdapter.setAccountData adapter_foo "m.foo" (obj_a 2) runtime_foo)
  = Returns (obj_a 2)
  ∧ AccountDataClientAdapter.getAccountData adapter_foo "m.foo" runtime_foo = Returns (obj_a 1)
  ∧ AccountDataClientAdapter.getAccountData adapter_foo "m.bar" runtime_foo = Returns JNull.
Proof.
  pose proof (getAccountData_pending_shadows_existing adapter_foo runtime_foo "m.foo" (obj_a 2)
                eq_refl) as (H1 & _ & H3 & _).
  pose proof (getAccountData_pending_shadows_existing adapter_foo runtime_foo "m.bar" (obj_a 2)
                eq_refl) as (_ & _ & _ & H4).
  split_and!.
  - exact H1.
  - exact (H3 runtime_foo (mkMatrixEvent "m.foo" (obj_a 1)) eq_refl eq_refl).
  - apply (H4 runtime_foo eq_refl eq_refl). vm_compute. intros Hin.
    repeat (apply elem_of_cons in Hin as [Hin|Hin]; [discriminate|]).
    by apply elem_of_nil in Hin.
Defined.

(** C10: the code at the input where it departs from the claim, and what
    it does everywhere. When the content recorded as pending for a type is
    falsy ([null], [false], ...), [getAccountData] and
    [getAccountDataFromServer] pass over it and go on to the pre-existing
    data. There they answer the content of the pre-existing entry when the
    type has one, and [null] when it has none and is not a name inherited
    from [Object.prototype]; at an inherited name with no entry of its own
    ("constructor", "toString", ...) both throw a [TypeError] instead of
    answering [null], [getAccountDataFromServer] before it has made a
    promise. *)
Theorem getAccountData_falsy_pending_ignored
    (a : AccountDataClientAdapter.t) (rt : Runtime) (t : string) (c : JsValue) :
  truthy c = false →
  JsMap.get (AccountDataClientAdapter.pending a (AccountDataClientAdapter.setAccountData a t c rt)) t
    = Some c
  ∧ (∀ ev, AccountDataClientAdapter._existingValues a !! t = Some ev →
       AccountDataClientAdapter.getAccountData a t
         (AccountDataClientAdapter.setAccountData a t c rt)
       = Returns (getContent ev)
       ∧ AccountDataClientAdapter.getAccountDataFromServer a t
           (AccountDataClientAdapter.setAccountData a t c rt)
         = Returns (Fulfilled (getContent ev)))
  ∧ (AccountDataClientAdapter._existingValues a !! t = None →
     t ∉ Object_prototype_names →
     AccountDataClientAdapter.getAccountData a t
       (AccountDataClientAdapter.setAccountData a t c rt)
     = Returns JNull
     ∧ AccountDataClientAdapter.getAccountDataFromServer a t
         (AccountDataClientAdapter.setAccountData a t c rt)
       = Returns (Fulfilled JNull))
  ∧ (AccountDataClientAdapter._existingValues a !! t = None →
     t ∈ Object_prototype_names →
     AccountDataClientAdapter.getAccountData a t
       (AccountDataClientAdapter.setAccountData a t c rt)
     = Throws JsTypeError
     ∧ AccountDataClientAdapter.getAccountDataFromServer a t
         (AccountDataClientAdapter.setAccountData a t c rt)
       = Throws JsTypeError).
Proof.
  intros Hc.
  rewrite getAccountDataFromServer_unfold, getAccountData_after_set, Hc,
    pending_setAccountData, JsMap_get_set_eq.
  split_and!; [done | | | ].
  - intros ev Hown. by rewrite (existing_content_own _ _ _ Hown).
  - intros Hnone Hnotin. by rewrite (existing_content_none _ _ Hnone Hnotin).
  - intros Hnone Hin. by rewrite (existing_content_inherited _ _ Hnone Hin).
Qed.

(** With no pre-existing account data, [null] is written for
    "constructor": the read does not answer [null], it throws. Over
    [{"m.foo": {"a": 1}}], [null] written for "m.foo" is passed over. *)
Lemma getAccountData_falsy_pending_ignored_witness :
  AccountDataClientAdapter.getAccountData adapter_empty "constructor"
    (AccountDataClientAdapter.setAccountData adapter_empty "constructor" JNull runtime_empty)
  = Throws JsTypeError
  ∧ AccountDataClientAdapter.getAccountDataFromServer adapter_empty "constructor"
      (AccountDataClientAdapter.setAccountData adapter_empty "constructor" JNull runtime_empty)
    = Throws JsTypeError
  ∧ AccountDataClientAdapter.getAccountData adapter_foo "m.foo"
      (AccountDataClientAdapter.setAccountData adapter_foo "m.foo" JNull runtime_foo)
    = Returns (obj_a 1).
Proof.
  pose proof (getAccountData_falsy_pending_ignored adapter_empty runtime_empty
                "constructor" JNull eq_refl) as (_ & _ & _ & Hthrow).
  pose proof (getAccountData_falsy_pending_ignored adapter_foo runtime_foo
                "m.foo" JNull eq_refl) as (_ & Hown & _ & _).
  assert ("constructor" ∈ Object_prototype_names) as Hin by apply list_elem_of_here.
  destruct (Hthrow eq_refl Hin) as [H1 H2].
  split_and!; [exact H1 | exact H2 |].
  exact (proj1 (Hown (mkMatrixEvent "m.foo" (obj_a 1)) eq_refl)).
Defined.

(** ** The replay loop *)
Section Replay.
Context {W : Type}.
Implicit Types (baseApis : MatrixClient.t W) (s : NetState W)
  (entries : list (string * JsValue)).

Lemma for_of_await_app baseApis pre post s :
  EncryptionSetupOperation.for_of_await baseApis (pre ++ post) s =
  match EncryptionSetupOperation.for_of_await baseApis pre s with
  | (Fulfilled _, s') => EncryptionSetupOperation.for_of_await baseApis post s'
  | (Rejected reason, s') => (Rejected reason, s')
  end.
Proof.
  revert s. induction pre as [|[t c] pre IH]; intros s; simpl; [done|].
  unfold net_await, MatrixClient.call_setAccountData.
  destruct (MatrixClient.setAccountData baseApis t c (remote s)) as [[[]|reason] w]; [|done].
  apply IH.
Qed.

(** Whatever the client answers, the loop issues a prefix of the entries,
    in their order, and all of them when it fulfils. *)
Lemma for_of_await_issued baseApis entries s :
  ∃ issued,
    calls (EncryptionSetupOperation.for_of_await baseApis entries s).2 = calls s ++ issued
    ∧ issued `prefix_of` entries
    ∧ (∀ u, (EncryptionSetupOperation.for_of_await baseApis entries s).1 = Fulfilled u →
         issued = entries).
Proof.
  revert s. induction entries as [|[t c] entries IH]; intros s; simpl.
  - exists []. rewrite app_nil_r. done.
  - unfold net_await, MatrixClient.call_setAccountData.
    destruct (MatrixClient.setAccountData baseApis t c (remote s)) as [[[]|reason] w].
    + destruct (IH {| remote := w; calls := calls s ++ [(t, c)] |})
        as (issued & Hcalls & Hpre & Hall).
      exists ((t, c) :: issued). rewrite Hcalls. simpl. rewrite <- app_assoc. simpl.
      split_and!; [done | by apply prefix_cons |].
      intros u Hu. f_equal. by apply (Hall u).
    + exists [(t, c)]. simpl. split_and!; [done | apply prefix_cons, prefix_nil | done].
Qed.

Lemma for_of_await_fulfilled baseApis entries s u s' :
  EncryptionSetupOperation.for_of_await baseApis entries s = (Fulfilled u, s') →
  calls s' = calls s ++ entries ∧ remote s' = remote_after baseApis entries (remote s).
Proof.
  revert s. induction entries as [|[t c] entries IH]; intros s; simpl.
  - unfold net_ret. intros [= _ <-]. by rewrite app_nil_r.
  - unfold net_await, MatrixClient.call_setAccountData.
    destruct (MatrixClient.setAccountData baseApis t c (remote s)) as [[[]|reason] w] eqn:Hcall;
      [|done].
    intros Hrest. apply IH in Hrest as [Hcalls Hremote]. simpl in *.
    rewrite Hcalls, Hremote, <- app_assoc. done.
Qed.

Lemma for_of_await_never_rejected baseApis entries s :
  (∀ t c w, (MatrixClient.setAccountData baseApis t c w).1 = Fulfilled tt) →
  EncryptionSetupOperation.for_of_await baseApis entries s =
  (Fulfilled tt,
   {| remote := remote_after baseApis entries (remote s); calls := calls s ++ entries |}).
Proof.
  intros Hok. revert s. induction entries as [|[t c] entries IH]; intros s; simpl.
  - unfold net_ret. rewrite app_nil_r. by destruct s.
  - unfold net_await, MatrixClient.call_setAccountData.
    specialize (Hok t c (remote s)).
    destruct (MatrixClient.setAccountData baseApis t c (remote s)) as [p w]. simpl in *.
    subst p. rewrite IH. simpl. by rewrite <- app_assoc.
Qed.

Lemma issued_by_calls {A : Type} (c : Net W A) s issued :
  calls (c s).2 = calls s ++ issued → issued_by c s = issued.
Proof. unfold issued_by. intros ->. by rewrite drop_app_length. Qed.

Lemma apply_unfold (op : EncryptionSetupOperation.t) (crypto : Crypto W) rt :
  EncryptionSetupOperation.apply op crypto rt =
  EncryptionSetupOperation.for_of_await (_baseApis crypto)
    (EncryptionSetupOperation.replay_entries op rt).
Proof.
  unfold EncryptionSetupOperation.apply, EncryptionSetupOperation.replay_entries.
  by destruct (EncryptionSetupOperation._accountData op).
Qed.

Lemma apply_fulfilled_issued (op : EncryptionSetupOperation.t) (crypto : Crypto W) rt s u :
  (EncryptionSetupOperation.apply op crypto rt s).1 = Fulfilled u →
  issued_by (EncryptionSetupOperation.apply op crypto rt) s
  = EncryptionSetupOperation.replay_entries op rt.
Proof.
  rewrite apply_unfold. intros Hu.
  destruct (for_of_await_issued (_baseApis crypto)
              (EncryptionSetupOperation.replay_entries op rt) s)
    as (issued & Hcalls & _ & Hall).
  rewrite (issued_by_calls _ _ _ Hcalls). by apply (Hall u).
Qed.

(** C2: every [apply] issues one [setAccountData] request per entry of the
    captured map, in the map's order, each on the remote state that the
    completion of the one before it left, whatever earlier [apply] calls
    did; it issues nothing else, and the captured cross-signing keys,
    key-backup info and key signatures play no part in it. *)
Theorem apply_replays_account_data_in_order
    (op : EncryptionSetupOperation.t) (crypto : Crypto W) (rt : Runtime) (s : NetState W) :
  calls (EncryptionSetupOperation.apply op crypto rt s).2
    = calls s ++ issued_by (EncryptionSetupOperation.apply op crypto rt) s
  ∧ issued_by (EncryptionSetupOperation.apply op crypto rt) s
      `prefix_of` EncryptionSetupOperation.replay_entries op rt
  ∧ (∀ u, (EncryptionSetupOperation.apply op crypto rt s).1 = Fulfilled u →
       issued_by (EncryptionSetupOperation.apply op crypto rt) s
       = EncryptionSetupOperation.replay_entries op rt)
  ∧ ((∀ t c w, (MatrixClient.setAccountData (_baseApis crypto) t c w).1 = Fulfilled tt) →
       EncryptionSetupOperation.apply op crypto rt s =
         (Fulfilled tt,
          {| remote := remote_after (_baseApis crypto)
                         (EncryptionSetupOperation.replay_entries op rt) (remote s);
             calls := calls s ++ EncryptionSetupOperation.replay_entries op rt |})
       ∧ issued_by (EncryptionSetupOperation.apply op crypto rt)
           (EncryptionSetupOperation.apply op crypto rt s).2
         = EncryptionSetupOperation.replay_entries op rt)
  ∧ (∀ crossSigningKeys keyBackupInfo keySignatures,
       EncryptionSetupOperation.apply
         (EncryptionSetupOperation.new (EncryptionSetupOperation._accountData op)
            crossSigningKeys keyBackupInfo keySignatures) crypto rt s
       = EncryptionSetupOperation.apply op crypto rt s).
Proof.
  rewrite apply_unfold.
  destruct (for_of_await_issued (_baseApis crypto)
              (EncryptionSetupOperation.replay_entries op rt) s)
    as (issued & Hcalls & Hprefix & Hall).
  rewrite (issued_by_calls _ _ _ Hcalls).
  split_and!; [done | done | done | | ].
  - intros Hok. split; [by apply for_of_await_never_rejected|].
    apply issued_by_calls. by rewrite !for_of_await_never_rejected.
  - intros. by rewrite apply_unfold.
Qed.

(** C3: when the write of the k-th captured entry is rejected, [apply]
    rejects with that reason; the requests it has issued are the entries
    before the k-th and the k-th itself, so no entry after it is attempted
    and nothing is sent to undo the earlier ones, whose effect on the
    remote side stays. *)
Theorem apply_stops_at_first_rejection
    (op : EncryptionSetupOperation.t) (crypto : Crypto W) (rt : Runtime) (s s1 : NetState W)
    (pre post : list (string * JsValue)) (t : string) (c reason : JsValue) (w2 : W) :
  EncryptionSetupOperation.replay_entries op rt = pre ++ (t, c) :: post →
  EncryptionSetupOperation.for_of_await (_baseApis crypto) pre s = (Fulfilled tt, s1) →
  MatrixClient.setAccountData (_baseApis crypto) t c (remote s1) = (Rejected reason, w2) →
  EncryptionSetupOperation.apply op crypto rt s =
    (Rejected reason, {| remote := w2; calls := calls s ++ pre ++ [(t, c)] |})
  ∧ issued_by (EncryptionSetupOperation.apply op crypto rt) s = pre ++ [(t, c)]
  ∧ remote s1 = remote_after (_baseApis crypto) pre (remote s).
Proof.
  intros Hentries Hpre Hcall.
  destruct (for_of_await_fulfilled _ _ _ _ _ Hpre) as [Hcalls Hremote].
  assert (EncryptionSetupOperation.apply op crypto rt s =
          (Rejected reason, {| remote := w2; calls := calls s ++ pre ++ [(t, c)] |})) as Happly.
  { rewrite apply_unfold, Hentries, for_of_await_app, Hpre. simpl.
    unfold net_await, MatrixClient.call_setAccountData. rewrite Hcall, Hcalls.
    by rewrite <- app_assoc. }
  split_and!; [done | | done].
  apply issued_by_calls. by rewrite Happly.
Qed.

End Replay.

(** The end-to-end scenario: over [{"m.foo": {"a": 1}}], write
    [{"a": 2}] for "m.foo" and [{"b": 9}] for "m.bar", build, apply. *)
Lemma apply_replays_account_data_in_order_witness :
  issued_by
    (EncryptionSetupOperation.apply (EncryptionSetupBuilder.buildOperation builder_foo)
       (fake_crypto None)
       (setAccountData_all builder_foo [("m.foo", obj_a 2); ("m.bar", obj_b 9)] runtime_foo))
    fresh_net
  = [("m.foo", obj_a 2); ("m.bar", obj_b 9)]
  ∧ (EncryptionSetupOperation.apply (EncryptionSetupBuilder.buildOperation builder_foo)
       (fake_crypto None)
       (setAccountData_all builder_foo [("m.foo", obj_a 2); ("m.bar", obj_b 9)] runtime_foo)
       fresh_net).1
    = Fulfilled tt.
Proof.
  pose proof (apply_replays_account_data_in_order
                (EncryptionSetupBuilder.buildOperation builder_foo) (fake_crypto None)
                (setAccountData_all builder_foo [("m.foo", obj_a 2); ("m.bar", obj_b 9)]
                   runtime_foo)
                fresh_net) as (_ & _ & Hall & Hok & _).
  split.
  - exact (Hall tt eq_refl).
  - destruct (Hok (fun t c w => eq_refl)) as [Happly _]. rewrite Happly. reflexivity.
Defined.

(** Three captured entries, the fake client rejects the second: the first
    was sent and stays stored, the third is never attempted. *)
Lemma apply_stops_at_first_rejection_witness :
  EncryptionSetupOperation.apply (EncryptionSetupBuilder.buildOperation builder_empty)
    (fake_crypto (Some "m.b"))
    (setAccountData_all builder_empty
       [("m.a", obj_a 1); ("m.b", obj_a 2); ("m.c", obj_a 3)] runtime_empty)
    fresh_net
  = (Rejected (JStr "M_UNKNOWN"),
     {| remote := [("m.a", obj_a 1)];
        calls := [("m.a", obj_a 1); ("m.b", obj_a 2)] |}).
Proof.
  exact (proj1 (apply_stops_at_first_rejection
    (EncryptionSetupBuilder.buildOperation builder_empty)
    (fake_crypto (Some "m.b"))
    (setAccountData_all builder_empty
       [("m.a", obj_a 1); ("m.b", obj_a 2); ("m.c", obj_a 3)] runtime_empty)
    fresh_net
    {| remote := [("m.a", obj_a 1)]; calls := [("m.a", obj_a 1)] |}
    [("m.a", obj_a 1)] [("m.c", obj_a 3)] "m.b" (obj_a 2) (JStr "M_UNKNOWN")
    [("m.a", obj_a 1)]
    eq_refl eq_refl eq_refl)).
Defined.

(** ** The snapshot taken by [buildOperation] *)

Lemma replay_entries_buildOperation b rt :
  EncryptionSetupOperation.replay_entries (EncryptionSetupBuilder.buildOperation b) rt
  = AccountDataClientAdapter.pending (EncryptionSetupBuilder.accountDataClientAdapter b) rt.
Proof. reflexivity. Qed.

Lemma pending_setAccountData_all b writes rt :
  AccountDataClientAdapter.pending (EncryptionSetupBuilder.accountDataClientAdapter b)
    (setAccountData_all b writes rt)
  = fold_left (fun m '(t, c) => JsMap.set m t c) writes
      (AccountDataClientAdapter.pending (EncryptionSetupBuilder.accountDataClientAdapter b) rt).
Proof.
  unfold setAccountData_all. revert rt.
  induction writes as [|[t c] writes IH]; intros rt; simpl; [done|].
  rewrite IH. unfold EncryptionSetupBuilder.setAccountData.
  by rewrite pending_setAccountData.
Qed.




(** ** Writing a type twice *)

(** A write of a key that is present replaces the value where the entry
    stands and moves nothing. *)
Lemma JsMap_set_at_entry {V : Type} (pre post : JsMap.t V) (k : string) (v0 v : V) :
  k ∉ JsMap.keys pre →
  JsMap.set (pre ++ (k, v0) :: post) k v = pre ++ (k, v) :: post.
Proof.
  unfold JsMap.keys. induction pre as [|[k' v'] pre IH]; csimpl; intros Hnotin.
  - by rewrite decide_True.
  - apply not_elem_of_cons in Hnotin as [Hne Hnotin].
    rewrite decide_False by congruence. by rewrite IH.
Qed.

(** C5, as the claim states it, fails: when the second content written for
    a type is [false], the read answers [null], not that content. *)
Lemma setAccountData_twice_counterexample :
  AccountDataClientAdapter.getAccountData adapter_empty "m.foo"
    (setAccountData_all builder_empty [("m.foo", obj_a 1); ("m.foo", JBool false)] runtime_empty)
  = Returns JNull
  ∧ JNull ≠ JBool false.
Proof. split; [vm_compute; reflexivity | discriminate]. Qed.

(** C5 (amended): after a write of [c1] and then of [c2] for the same type
    [t], a read of [t] answers [c2] when [c2] is truthy; and, whatever
    [c2] is, the operation replays one entry for [t], holding [c2], at the
    place in the order where [t] was first inserted: where the entry of
    [t] stood before the two writes when [t] was pending already, every
    other entry staying where it was; behind all entries pending before
    when it was not. The second write moves nothing. *)
Theorem setAccountData_twice_last_write_wins
    {W : Type} (b : EncryptionSetupBuilder.t) (rt : Runtime) (t : string) (c1 c2 : JsValue) :
  JsMap.wf (AccountDataClientAdapter.pending (EncryptionSetupBuilder.accountDataClientAdapter b) rt) →
  (truthy c2 = true →
     AccountDataClientAdapter.getAccountData (EncryptionSetupBuilder.accountDataClientAdapter b) t
       (setAccountData_all b [(t, c1); (t, c2)] rt) = Returns c2)
  ∧ (∃ pre post,
       EncryptionSetupOperation.replay_entries (EncryptionSetupBuilder.buildOperation b)
         (setAccountData_all b [(t, c1)] rt) = pre ++ (t, c1) :: post
       ∧ EncryptionSetupOperation.replay_entries (EncryptionSetupBuilder.buildOperation b)
           (setAccountData_all b [(t, c1); (t, c2)] rt) = pre ++ (t, c2) :: post
       ∧ (t ∉ JsMap.keys pre) ∧ (t ∉ JsMap.keys post))
  ∧ (∀ pre post c0,
       EncryptionSetupOperation.replay_entries (EncryptionSetupBuilder.buildOperation b) rt
       = pre ++ (t, c0) :: post →
       EncryptionSetupOperation.replay_entries (EncryptionSetupBuilder.buildOperation b)
         (setAccountData_all b [(t, c1)] rt) = pre ++ (t, c1) :: post
       ∧ EncryptionSetupOperation.replay_entries (EncryptionSetupBuilder.buildOperation b)
           (setAccountData_all b [(t, c1); (t, c2)] rt) = pre ++ (t, c2) :: post)
  ∧ (t ∉ JsMap.keys
           (EncryptionSetupOperation.replay_entries (EncryptionSetupBuilder.buildOperation b) rt) →
       EncryptionSetupOperation.replay_entries (EncryptionSetupBuilder.buildOperation b)
         (setAccountData_all b [(t, c1)] rt)
       = EncryptionSetupOperation.replay_entries (EncryptionSetupBuilder.buildOperation b) rt
           ++ [(t, c1)]
       ∧ EncryptionSetupOperation.replay_entries (EncryptionSetupBuilder.buildOperation b)
           (setAccountData_all b [(t, c1); (t, c2)] rt)
         = EncryptionSetupOperation.replay_entries (EncryptionSetupBuilder.buildOperation b) rt
             ++ [(t, c2)])
  ∧ (∀ (crypto : Crypto W) (s : NetState W) u,
       (EncryptionSetupOperation.apply (EncryptionSetupBuilder.buildOperation b) crypto
          (setAccountData_all b [(t, c1); (t, c2)] rt) s).1 = Fulfilled u →
       issued_by
         (EncryptionSetupOperation.apply (EncryptionSetupBuilder.buildOperation b) crypto
            (setAccountData_all b [(t, c1); (t, c2)] rt)) s
       = EncryptionSetupOperation.replay_entries (EncryptionSetupBuilder.buildOperation b)
           (setAccountData_all b [(t, c1); (t, c2)] rt)).
Proof.
  intros Hwf. split_and!.
  - intros Hc2. simpl. unfold EncryptionSetupBuilder.setAccountData.
    by rewrite getAccountData_after_set, Hc2.
  - rewrite !replay_entries_buildOperation, !pending_setAccountData_all. simpl.
    destruct (JsMap_set_split _ t c1 Hwf) as (pre & post & Heq & Hpre & Hpost & Hagain).
    exists pre, post. by rewrite Hagain.
  - intros pre post c0. rewrite !replay_entries_buildOperation, !pending_setAccountData_all.
    simpl. intros Hsplit.
    assert (t ∉ JsMap.keys pre) as Hpre.
    { unfold JsMap.wf, JsMap.keys in *. rewrite Hsplit, fmap_app in Hwf.
      apply NoDup_app in Hwf as (_ & Hdisj & _). intros Hin.
      apply (Hdisj t Hin). csimpl. apply list_elem_of_here. }
    rewrite Hsplit, !JsMap_set_at_entry by done. done.
  - rewrite !replay_entries_buildOperation, !pending_setAccountData_all. simpl.
    intros Hnotin. rewrite (JsMap_set_fresh _ t c1 Hnotin).
    split; [done|]. apply JsMap_set_at_entry. done.
  - intros crypto s u Hu. by apply (apply_fulfilled_issued _ _ _ _ u).
Qed.

(** Over [{"m.foo": {"a": 1}}] with "m.foo" and then "m.bar" pending:
    "m.foo" is written twice more. It reads as the last content, and the
    replay sends it once, with that content, still ahead of "m.bar". *)
Lemma setAccountData_twice_last_write_wins_witness :
  AccountDataClientAdapter.getAccountData adapter_foo "m.foo"
    (setAccountData_all builder_foo [("m.foo", obj_a 2); ("m.foo", obj_a 3)]
       (setAccountData_all builder_foo [("m.foo", obj_a 5); ("m.bar", obj_b 9)] runtime_foo))
  = Returns (obj_a 3)
  ∧ issued_by
      (EncryptionSetupOperation.apply (EncryptionSetupBuilder.buildOperation builder_foo)
         (fake_crypto None)
         (setAccountData_all builder_foo [("m.foo", obj_a 2); ("m.foo", obj_a 3)]
            (setAccountData_all builder_foo [("m.foo", obj_a 5); ("m.bar", obj_b 9)]
               runtime_foo)))
      fresh_net
    = [("m.foo", obj_a 3); ("m.bar", obj_b 9)]
  ∧ EncryptionSetupOperation.replay_entries (EncryptionSetupBuilder.buildOperation builder_foo)
      (setAccountData_all builder_foo [("m.foo", obj_a 2); ("m.foo", obj_a 3)]
         (setAccountData_all builder_foo [("m.foo", obj_a 5); ("m.bar", obj_b 9)] runtime_foo))
    = [] ++ ("m.foo", obj_a 3) :: [("m.bar", obj_b 9)].
Proof.
  assert (JsMap.wf (AccountDataClientAdapter.pending
                      (EncryptionSetupBuilder.accountDataClientAdapter builder_foo)
                      (setAccountData_all builder_foo [("m.foo", obj_a 5); ("m.bar", obj_b 9)]
                         runtime_foo))) as Hwf.
  { vm_compute. apply NoDup_cons. split.
    - intros Hin. apply list_elem_of_singleton in Hin. discriminate.
    - apply NoDup_singleton. }
  pose proof (setAccountData_twice_last_write_wins (W := JsMap.t JsValue) builder_foo
                (setAccountData_all builder_foo [("m.foo", obj_a 5); ("m.bar", obj_b 9)]
                   runtime_foo)
                "m.foo" (obj_a 2) (obj_a 3) Hwf) as (Hread & _ & Hplace & _ & Hsend).
  split_and!.
  - exact (Hread eq_refl).
  - exact (Hsend (fake_crypto None) fresh_net tt eq_refl).
  - exact (proj2 (Hplace [] [("m.bar", obj_b 9)] (obj_a 5) eq_refl)).
Defined.

(** ** The cross-signing key store *)

Lemma saveCrossSigningKeys_fold_lookup (l : list (string * PrivateKey)) cb t :
  NoDup (l.*1) →
  CrossSigningCallbacks.privateKeys
    (fold_left
       (fun acc '(type, privateKey) =>
          {| CrossSigningCallbacks.privateKeys :=
               <[type := privateKey]> (CrossSigningCallbacks.privateKeys acc) |})
       l cb) !! t
  = match (list_to_map l : gmap string PrivateKey) !! t with
    | Some k => Some k
    | None => CrossSigningCallbacks.privateKeys cb !! t
    end.
Proof.
  revert cb. induction l as [|[k v] l IH]; intros cb; csimpl; [done|].
  intros [Hk Hnodup]%NoDup_cons. rewrite IH by done. simpl.
  destruct (decide (k = t)) as [->|Hne].
  - rewrite lookup_insert_eq.
    rewrite (not_elem_of_list_to_map_1 (M := gmap string) l t Hk).
    by rewrite lookup_insert_eq.
  - by rewrite !lookup_insert_ne.
Qed.

(** The order in which [Object.entries] enumerates the argument does not
    matter: its property names are pairwise distinct. *)
Lemma saveCrossSigningKeys_any_order (l : list (string * PrivateKey)) cb
    (keys : gmap string PrivateKey) t :
  l ≡ₚ map_to_list keys →
  CrossSigningCallbacks.privateKeys
    (fold_left
       (fun acc '(type, privateKey) =>
          {| CrossSigningCallbacks.privateKeys :=
               <[type := privateKey]> (CrossSigningCallbacks.privateKeys acc) |})
       l cb) !! t
  = CrossSigningCallbacks.privateKeys (CrossSigningCallbacks.saveCrossSigningKeys cb keys) !! t.
Proof.
  intros Hperm. unfold CrossSigningCallbacks.saveCrossSigningKeys.
  rewrite !saveCrossSigningKeys_fold_lookup.
  - by rewrite (list_to_map_proper (M := gmap string) l (map_to_list keys)
                  ltac:(rewrite Hperm; apply NoDup_fst_map_to_list) Hperm).
  - apply NoDup_fst_map_to_list.
  - rewrite Hperm. apply NoDup_fst_map_to_list.
Qed.

Lemma saveCrossSigningKeys_lookup cb (keys : gmap string PrivateKey) t :
  CrossSigningCallbacks.privateKeys (CrossSigningCallbacks.saveCrossSigningKeys cb keys) !! t
  = match keys !! t with
    | Some k => Some k
    | None => CrossSigningCallbacks.privateKeys cb !! t
    end.
Proof.
  unfold CrossSigningCallbacks.saveCrossSigningKeys.
  rewrite saveCrossSigningKeys_fold_lookup by apply NoDup_fst_map_to_list.
  by rewrite list_to_map_to_list.
Qed.

(** C7: both shapes read and write one store. A key stored through the
    cache shape is what the authoritative [get] answers, for every
    expected public key; keys saved through [saveCrossSigningKeys] are what
    the cache [get] answers; and the expected public key changes the answer
    of neither [get]. *)
Theorem cross_signing_shapes_share_one_store
    (cb : CrossSigningCallbacks.t) (t : string) (k : PrivateKey) (p p' : JsValue) :
  CrossSigningCallbacks.getCrossSigningKey
      (CrossSigningCallbacks.storeCrossSigningKeyCache cb t k).2 t p
    = Fulfilled (Some k)
  ∧ (∀ keys : gmap string PrivateKey, keys !! t = Some k →
       CrossSigningCallbacks.getCrossSigningKeyCache
         (CrossSigningCallbacks.saveCrossSigningKeys cb keys) t p
       = Fulfilled (Some k))
  ∧ CrossSigningCallbacks.getCrossSigningKey cb t p
    = CrossSigningCallbacks.getCrossSigningKey cb t p'
  ∧ CrossSigningCallbacks.getCrossSigningKeyCache cb t p
    = CrossSigningCallbacks.getCrossSigningKeyCache cb t p'
  ∧ CrossSigningCallbacks.getCrossSigningKeyCache cb t p
    = CrossSigningCallbacks.getCrossSigningKey cb t p'.
Proof.
  unfold CrossSigningCallbacks.getCrossSigningKeyCache, CrossSigningCallbacks.getCrossSigningKey,
    Promise_resolve.
  split_and!; try done.
  - simpl. by rewrite lookup_insert_eq.
  - intros keys Hk. by rewrite saveCrossSigningKeys_lookup, Hk.
Qed.

(** C9: after [saveCrossSigningKeys], a [get] of a type that the argument
    holds answers the new key, and a [get] of any other type answers what
    it answered before. The method is synchronous, with no suspension point
    in its loop: it is one step of the store, with no state in between for
    a reader to see. *)
Theorem saveCrossSigningKeys_overwrites_listed_types_only
    (cb : CrossSigningCallbacks.t) (keys : gmap string PrivateKey) (t : string) (p : JsValue) :
  CrossSigningCallbacks.getCrossSigningKey
      (CrossSigningCallbacks.saveCrossSigningKeys cb keys) t p
    = match keys !! t with
      | Some k => Fulfilled (Some k)
      | None => CrossSigningCallbacks.getCrossSigningKey cb t p
      end
  ∧ CrossSigningCallbacks.getCrossSigningKeyCache
      (CrossSigningCallbacks.saveCrossSigningKeys cb keys) t p
    = match keys !! t with
      | Some k => Fulfilled (Some k)
      | None => CrossSigningCallbacks.getCrossSigningKeyCache cb t p
      end.
Proof.
  unfold CrossSigningCallbacks.getCrossSigningKeyCache, CrossSigningCallbacks.getCrossSigningKey,
    Promise_resolve.
  rewrite saveCrossSigningKeys_lookup. by destruct (keys !! t).
Qed.

(** ** The secret-storage key store *)

Lemma getSecretStorageKey_loop_Some this keyIds keyId key :
  SSSSCryptoCallbacks.getSecretStorageKey_loop this keyIds = Some (keyId, key) ↔
  ∃ pre post,
    keyIds = pre ++ keyId :: post
    ∧ SSSSCryptoCallbacks._privateKeys this !! keyId = Some key
    ∧ ∀ k, k ∈ pre → SSSSCryptoCallbacks._privateKeys this !! k = None.
Proof.
  induction keyIds as [|k0 keyIds IH]; simpl.
  - split; [done|]. intros (pre & post & Heq & _). by destruct pre.
  - destruct (SSSSCryptoCallbacks._privateKeys this !! k0) as [key0|] eqn:Hk0.
    + split.
      * intros [= -> ->]. exists [], keyIds. split_and!; [done | done |].
        intros k Hk. by apply elem_of_nil in Hk.
      * intros (pre & post & Heq & Hkey & Hpre). destruct pre as [|k1 pre]; simpl in Heq.
        -- injection Heq as -> _. congruence.
        -- injection Heq as -> _. rewrite Hpre in Hk0 by apply list_elem_of_here. done.
    + rewrite IH. split.
      * intros (pre & post & -> & Hkey & Hpre). exists (k0 :: pre), post.
        split_and!; [done | done |].
        intros k [->|Hk]%elem_of_cons; [done | by apply Hpre].
      * intros (pre & post & Heq & Hkey & Hpre). destruct pre as [|k1 pre]; simpl in Heq.
        -- injection Heq as -> _. congruence.
        -- injection Heq as -> ->. exists pre, post. split_and!; [done | done |].
           intros k Hk. apply Hpre. by apply list_elem_of_further.
Qed.

Lemma getSecretStorageKey_loop_None this keyIds :
  SSSSCryptoCallbacks.getSecretStorageKey_loop this keyIds = None ↔
  ∀ k, k ∈ keyIds → SSSSCryptoCallbacks._privateKeys this !! k = None.
Proof.
  induction keyIds as [|k0 keyIds IH]; simpl.
  - split; [|done]. intros _ k Hk. by apply elem_of_nil in Hk.
  - destruct (SSSSCryptoCallbacks._privateKeys this !! k0) as [key0|] eqn:Hk0.
    + split; [done|]. intros Hall. rewrite Hall in Hk0 by apply list_elem_of_here. done.
    + rewrite IH. split.
      * intros Hall k [->|Hk]%elem_of_cons; [done | by apply Hall].
      * intros Hall k Hk. apply Hall. by apply list_elem_of_further.
Qed.

(** C8: [getSecretStorageKey] answers the pair of the first key id, in the
    order of the descriptor, for which the store holds a key, and answers
    nothing exactly when the store holds none of them; the name of the
    secret changes nothing. The function has no failing path. *)
Theorem getSecretStorageKey_first_held_candidate
    (this : SSSSCryptoCallbacks.t) (keys : list (string * JsValue)) (name name' : string) :
  (∀ keyId key,
     SSSSCryptoCallbacks.getSecretStorageKey this keys name = Some (keyId, key) ↔
     ∃ pre post,
       Object_keys keys = pre ++ keyId :: post
       ∧ SSSSCryptoCallbacks._privateKeys this !! keyId = Some key
       ∧ ∀ k, k ∈ pre → SSSSCryptoCallbacks._privateKeys this !! k = None)
  ∧ (SSSSCryptoCallbacks.getSecretStorageKey this keys name = None ↔
     ∀ k, k ∈ Object_keys keys → SSSSCryptoCallbacks._privateKeys this !! k = None)
  ∧ SSSSCryptoCallbacks.getSecretStorageKey this keys name
    = SSSSCryptoCallbacks.getSecretStorageKey this keys name'.
Proof.
  unfold SSSSCryptoCallbacks.getSecretStorageKey. split_and!.
  - intros keyId key. apply getSecretStorageKey_loop_Some.
  - apply getSecretStorageKey_loop_None.
  - done.
Qed.

(** A store holding a key for "keyId2" only, asked for "keyId1" or
    "keyId2", answers the pair of "keyId2"; asked for "keyId1" alone it
    answers nothing. *)
Lemma getSecretStorageKey_first_held_candidate_witness :
  SSSSCryptoCallbacks.getSecretStorageKey ssss_keyId2
    [("keyId1", JObj []); ("keyId2", JObj [])] "m.cross_signing.master"
  = Some ("keyId2", key_2)
  ∧ SSSSCryptoCallbacks.getSecretStorageKey ssss_keyId2
      [("keyId1", JObj [])] "m.cross_signing.master"
    = None.
Proof.
  split.
  - apply (proj1 (getSecretStorageKey_first_held_candidate ssss_keyId2
                    [("keyId1", JObj []); ("keyId2", JObj [])]
                    "m.cross_signing.master" "m.cross_signing.master")).
    exists ["keyId1"], []. split; [reflexivity|]. split; [reflexivity|].
    intros k Hk. apply list_elem_of_singleton in Hk. subst k. reflexivity.
  - apply (proj1 (proj2 (getSecretStorageKey_first_held_candidate ssss_keyId2
                           [("keyId1", JObj [])]
                           "m.cross_signing.master" "m.cross_signing.master"))).
    intros k Hk. apply list_elem_of_singleton in Hk. subst k. reflexivity.
Defined.

Lemma cross_signing_shapes_share_one_store_witness :
  CrossSigningCallbacks.getCrossSigningKey
      (CrossSigningCallbacks.storeCrossSigningKeyCache CrossSigningCallbacks.new "master" key_1).2
      "master" (JStr "pubkey")
    = Fulfilled (Some key_1)
  ∧ CrossSigningCallbacks.getCrossSigningKeyCache
      (CrossSigningCallbacks.saveCrossSigningKeys CrossSigningCallbacks.new
         {[ "master" := key_1 ]}) "master" JUndefined
    = Fulfilled (Some key_1).
Proof.
  split.
  - exact (proj1 (cross_signing_shapes_share_one_store CrossSigningCallbacks.new "master" key_1
                    (JStr "pubkey") JNull)).
  - exact (proj1 (proj2 (cross_signing_shapes_share_one_store CrossSigningCallbacks.new "master"
                           key_1 JUndefined JNull))
             {[ "master" := key_1 ]} eq_refl).
Defined.

(** ** Deferred notification of writes *)

Lemma writes_of_app ops1 ops2 : writes_of (ops1 ++ ops2) = writes_of ops1 ++ writes_of ops2.
Proof. unfold writes_of. apply flat_map_app. Qed.

Lemma subscriptions_of_app ops1 ops2 :
  subscriptions_of (ops1 ++ ops2) = subscriptions_of ops1 ++ subscriptions_of ops2.
Proof. unfold subscriptions_of. apply flat_map_app. Qed.

Lemma listeners_at_on e l rt : listeners_at (on e l rt) e = listeners_at rt e ++ [l].
Proof. unfold listeners_at at 1. simpl. by rewrite lookup_insert_eq. Qed.

(** What a synchronous step leaves: the jobs of its writes at the back of
    the queue, its listeners at the back of the registration list, and
    nothing delivered. *)
Lemma run_sync_effect a ops rt :
  rt_microtasks (run_sync a ops rt) = rt_microtasks rt ++ map (job_of a) (writes_of ops)
  ∧ listeners_at (run_sync a ops rt) (AccountDataClientAdapter._events a)
    = listeners_at rt (AccountDataClientAdapter._events a) ++ subscriptions_of ops
  ∧ rt_delivered (run_sync a ops rt) = rt_delivered rt
  ∧ AccountDataClientAdapter.pending a (run_sync a ops rt)
    = fold_left (fun m w => JsMap.set m w.1 w.2) (writes_of ops)
        (AccountDataClientAdapter.pending a rt).
Proof.
  unfold run_sync. revert rt. induction ops as [|op ops IH]; intros rt; simpl.
  - by rewrite !app_nil_r.
  - destruct (IH (run_op a rt op)) as (Hq & Hl & Hd & Hp).
    rewrite Hq, Hl, Hd, Hp. destruct op as [t c|l]; simpl.
    + rewrite pending_setAccountData, <- app_assoc. done.
    + rewrite listeners_at_on, <- app_assoc. done.
Qed.

Lemma fold_run_job jobs rt :
  rt_emitters (fold_left run_job jobs rt) = rt_emitters rt
  ∧ rt_microtasks (fold_left run_job jobs rt) = rt_microtasks rt
  ∧ rt_maps (fold_left run_job jobs rt) = rt_maps rt
  ∧ rt_delivered (fold_left run_job jobs rt)
    = rt_delivered rt
      ++ flat_map (fun j => match j with
                            | EmitAccountData e t c =>
                                map (fun l => (l, mkMatrixEvent t c)) (listeners_at rt e)
                            end) jobs.
Proof.
  revert rt. induction jobs as [|[e t c] jobs IH]; intros rt; simpl.
  - by rewrite app_nil_r.
  - destruct (IH (emit e (mkMatrixEvent t c) rt)) as (He & Hq & Hm & Hd).
    rewrite He, Hq, Hm, Hd. simpl. rewrite <- app_assoc. done.
Qed.

Lemma filter_listener_pairs (l : Listener) (ev : MatrixEvent) (L : list Listener) :
  filter (fun d : nat * MatrixEvent => d.1 = l) (map (fun l' => (l', ev)) L)
  = map (fun l' => (l', ev)) (filter (fun l' => l' = l) L).
Proof.
  induction L as [|l0 L IH]; simpl; [done|].
  destruct (decide (l0 = l)) as [->|Hne].
  - rewrite !filter_cons_True by done. simpl. by rewrite IH.
  - rewrite !filter_cons_False by done. done.
Qed.

Lemma filter_listener_absent (l : Listener) (L : list Listener) :
  l ∉ L → filter (fun l' => l' = l) L = [].
Proof.
  induction L as [|l0 L IH]; [done|].
  rewrite not_elem_of_cons. intros [Hne Hnotin].
  rewrite filter_cons_False by congruence. by apply IH.
Qed.

(** A listener registered once receives each job's event once, in the
    order of the jobs. *)
Lemma deliveries_of_jobs (l : Listener) (L : list Listener) (ws : list (string * JsValue)) :
  filter (fun l' => l' = l) L = [l] →
  (filter (fun d : nat * MatrixEvent => d.1 = l)
     (flat_map (fun w => map (fun l' => (l', event_of w)) L) ws)).*2
  = map event_of ws.
Proof.
  intros HL. induction ws as [|w ws IH]; simpl; [done|].
  rewrite filter_app, fmap_app, IH, filter_listener_pairs, HL. done.
Qed.

Lemma run_microtasks_effect a rt ws :
  rt_microtasks rt = map (job_of a) ws →
  rt_microtasks (run_microtasks rt) = []
  ∧ rt_delivered (run_microtasks rt)
    = rt_delivered rt
      ++ flat_map (fun w => map (fun l => (l, event_of w))
                              (listeners_at rt (AccountDataClientAdapter._events a))) ws.
Proof.
  intros Hq. unfold run_microtasks. rewrite Hq.
  match goal with |- context [fold_left run_job _ ?r] =>
    destruct (fold_run_job (map (job_of a) ws) r) as (_ & Hq' & _ & Hd) end.
  rewrite Hq', Hd. simpl. split; [done|]. f_equal.
  clear. induction ws as [|w ws IH]; simpl; [done|]. by rewrite IH.
Qed.

(** C6: a write records the pending value at once and puts one job,
    carrying the type and the content, at the back of the microtask queue;
    nothing is delivered while the synchronous step runs. When the step is
    over the queue is emptied before anything else runs: a listener that
    the step registered once, before or after the writes, is called once
    per write of the step, in the order of the writes, and no job is left
    for a later turn. *)
Theorem setAccountData_notifies_at_next_microtask_checkpoint
    (a : AccountDataClientAdapter.t) (rt : Runtime) :
  (∀ t c,
     JsMap.get (AccountDataClientAdapter.pending a
                  (AccountDataClientAdapter.setAccountData a t c rt)) t = Some c
     ∧ rt_microtasks (AccountDataClientAdapter.setAccountData a t c rt)
       = rt_microtasks rt ++ [EmitAccountData (AccountDataClientAdapter._events a) t c]
     ∧ rt_delivered (AccountDataClientAdapter.setAccountData a t c rt) = rt_delivered rt)
  ∧ (∀ (ops1 ops2 : list SyncOp) (l : Listener),
       rt_microtasks rt = [] →
       l ∉ listeners_at rt (AccountDataClientAdapter._events a) →
       l ∉ subscriptions_of ops1 →
       l ∉ subscriptions_of ops2 →
       rt_delivered (run_sync a (ops1 ++ OpOn l :: ops2) rt) = rt_delivered rt
       ∧ rt_microtasks (run_sync a (ops1 ++ OpOn l :: ops2) rt)
         = map (job_of a) (writes_of ops1 ++ writes_of ops2)
       ∧ deliveries_to l (turn a (ops1 ++ OpOn l :: ops2) rt)
         = deliveries_to l rt ++ map event_of (writes_of ops1 ++ writes_of ops2)
       ∧ rt_microtasks (turn a (ops1 ++ OpOn l :: ops2) rt) = []).
Proof.
  split.
  - intros t c. rewrite pending_setAccountData, JsMap_get_set_eq. done.
  - intros ops1 ops2 l Hempty Hl Hl1 Hl2.
    destruct (run_sync_effect a (ops1 ++ OpOn l :: ops2) rt) as (Hq & HL & Hd & _).
    rewrite Hempty in Hq. simpl in Hq.
    rewrite writes_of_app in Hq. simpl in Hq.
    rewrite subscriptions_of_app in HL. simpl in HL.
    destruct (run_microtasks_effect a _ _ Hq) as [Hq' Hd'].
    unfold turn, deliveries_to. rewrite Hd', HL, Hd, Hq.
    split_and!; [done | done | | done].
    rewrite filter_app, fmap_app. f_equal.
    apply deliveries_of_jobs.
    rewrite !filter_app, filter_cons_True by done.
    rewrite !filter_listener_absent by done. done.
Qed.

(** One synchronous step on a fresh adapter: write "m.foo", register
    listener 7, write "m.bar". After the microtask checkpoint listener 7
    has been called with both events, in the order of the writes. *)
Lemma setAccountData_notifies_at_next_microtask_checkpoint_witness :
  deliveries_to 7
    (turn adapter_empty
       ([OpSetAccountData "m.foo" (obj_a 2)] ++ OpOn 7 :: [OpSetAccountData "m.bar" (obj_b 9)])
       runtime_empty)
  = [mkMatrixEvent "m.foo" (obj_a 2); mkMatrixEvent "m.bar" (obj_b 9)]
  ∧ rt_delivered
      (run_sync adapter_empty
         ([OpSetAccountData "m.foo" (obj_a 2)] ++ OpOn 7 :: [OpSetAccountData "m.bar" (obj_b 9)])
         runtime_empty)
    = [].
Proof.
  assert (7 ∉ listeners_at runtime_empty (AccountDataClientAdapter._events adapter_empty)) as H0.
  { vm_compute. apply not_elem_of_nil. }
  assert (7 ∉ subscriptions_of [OpSetAccountData "m.foo" (obj_a 2)]) as H1.
  { apply not_elem_of_nil. }
  assert (7 ∉ subscriptions_of [OpSetAccountData "m.bar" (obj_b 9)]) as H2.
  { apply not_elem_of_nil. }
  pose proof (proj2 (setAccountData_notifies_at_next_microtask_checkpoint
                       adapter_empty runtime_empty)
                [OpSetAccountData "m.foo" (obj_a 2)] [OpSetAccountData "m.bar" (obj_b 9)] 7
                eq_refl H0 H1 H2) as (Hsync & _ & Hturn & _).
  split; [exact Hturn | exact Hsync].
Defined.

(** * Further properties of the code *)

(** ** Runs of writes *)

Lemma JsMap_keys_set {V : Type} (m : JsMap.t V) k v :
  JsMap.keys (JsMap.set m k v)
  = if decide (k ∈ JsMap.keys m) then JsMap.keys m else JsMap.keys m ++ [k].
Proof.
  destruct (decide (k ∈ JsMap.keys m)) as [Hin|Hnotin].
  - by apply JsMap_keys_set_present.
  - rewrite JsMap_set_fresh by done. unfold JsMap.keys. by rewrite fmap_app.
Qed.

Lemma JsMap_get_app {V : Type} (m1 m2 : JsMap.t V) k :
  JsMap.get (m1 ++ m2) k
  = match JsMap.get m1 k with Some v => Some v | None => JsMap.get m2 k end.
Proof.
  induction m1 as [|[k' v'] m1 IH]; simpl; [done|].
  by destruct (decide (k' = k)).
Qed.

Lemma JsMap_get_elem_of {V : Type} (m : JsMap.t V) k v :
  JsMap.get m k = Some v → (k, v) ∈ m.
Proof.
  induction m as [|[k' v'] m IH]; simpl; [done|].
  destruct (decide (k' = k)) as [->|Hne].
  - intros [= ->]. apply list_elem_of_here.
  - intros Hget. apply list_elem_of_further. by apply IH.
Qed.

Lemma JsMap_elem_of_get {V : Type} (m : JsMap.t V) k v :
  JsMap.wf m → (k, v) ∈ m → JsMap.get m k = Some v.
Proof.
  unfold JsMap.wf, JsMap.keys.
  induction m as [|[k' v'] m IH]; csimpl; intros Hwf Hin.
  - by apply elem_of_nil in Hin.
  - apply NoDup_cons in Hwf as [Hk' Hwf].
    apply elem_of_cons in Hin as [[= -> ->]|Hin].
    + by rewrite decide_True.
    + destruct (decide (k' = k)) as [->|Hne]; [|by apply IH].
      exfalso. apply Hk'. apply list_elem_of_fmap. by exists (k, v).
Qed.

Lemma first_writes_ext (s1 s2 types : list string) :
  (∀ x, x ∈ s1 ↔ x ∈ s2) → first_writes s1 types = first_writes s2 types.
Proof.
  revert s1 s2. induction types as [|t types IH]; intros s1 s2 Hs; simpl; [done|].
  destruct (decide (t ∈ s1)) as [H1|H1], (decide (t ∈ s2)) as [H2|H2].
  - by apply IH.
  - exfalso. apply H2. by apply Hs.
  - exfalso. apply H1. by apply Hs.
  - f_equal. apply IH. intros x. rewrite !elem_of_cons. by rewrite Hs.
Qed.

Lemma JsMap_fold_set_keys (ws : list (string * JsValue)) (m : JsMap.t JsValue) :
  JsMap.keys (fold_left (fun m '(t, c) => JsMap.set m t c) ws m)
  = JsMap.keys m ++ first_writes (JsMap.keys m) (JsMap.keys ws).
Proof.
  revert m. induction ws as [|[t c] ws IH]; intros m; csimpl.
  - by rewrite app_nil_r.
  - rewrite IH, JsMap_keys_set. unfold JsMap.keys at 5. csimpl.
    destruct (decide (t ∈ JsMap.keys m)) as [Hin|Hnotin]; [done|].
    rewrite <- app_assoc. simpl. do 2 f_equal.
    apply first_writes_ext. intros x.
    rewrite elem_of_app, list_elem_of_singleton, elem_of_cons. tauto.
Qed.

Lemma JsMap_fold_set_get (ws : list (string * JsValue)) (m : JsMap.t JsValue) t :
  JsMap.get (fold_left (fun m '(t, c) => JsMap.set m t c) ws m) t
  = match JsMap.get (rev ws) t with Some c => Some c | None => JsMap.get m t end.
Proof.
  revert m. induction ws as [|[t0 c0] ws IH]; intros m; simpl; [done|].
  rewrite IH, JsMap_get_app. destruct (JsMap.get (rev ws) t); [done|]. simpl.
  destruct (decide (t0 = t)) as [->|Hne].
  - by rewrite JsMap_get_set_eq.
  - by rewrite JsMap_get_set_ne.
Qed.

Lemma JsMap_fold_set_wf (ws : list (string * JsValue)) (m : JsMap.t JsValue) :
  JsMap.wf m → JsMap.wf (fold_left (fun m '(t, c) => JsMap.set m t c) ws m).
Proof.
  revert m. induction ws as [|[t c] ws IH]; intros m Hwf; simpl; [done|].
  by apply IH, JsMap_set_wf.
Qed.

(** ** Construction *)

Lemma new_builder_adapter accountData rt :
  EncryptionSetupBuilder.accountDataClientAdapter (EncryptionSetupBuilder.new accountData rt).1
  = {| AccountDataClientAdapter._events := fresh (dom (rt_emitters rt));
       AccountDataClientAdapter._existingValues := accountData;
       AccountDataClientAdapter._values := fresh (dom (rt_maps rt)) |}.
Proof. reflexivity. Qed.

Lemma new_builder_maps accountData rt :
  rt_maps (EncryptionSetupBuilder.new accountData rt).2
  = <[fresh (dom (rt_maps rt)) := JsMap.empty]> (rt_maps rt).
Proof. reflexivity. Qed.

Lemma new_builder_pending accountData rt :
  AccountDataClientAdapter.pending
    (EncryptionSetupBuilder.accountDataClientAdapter (EncryptionSetupBuilder.new accountData rt).1)
    (EncryptionSetupBuilder.new accountData rt).2
  = [].
Proof.
  unfold AccountDataClientAdapter.pending, JsMap.entries, map_at.
  rewrite new_builder_maps, new_builder_adapter. simpl. by rewrite lookup_insert_eq.
Qed.

(** X1: on a freshly constructed builder, after any run of writes, the
    built operation replays one entry per type written, in the order in
    which the types were first written, each with the content written
    last for it. *)
Theorem replay_after_writes_on_new_builder
    (accountData : gmap string MatrixEvent) (rt0 : Runtime) (ws : list (string * JsValue)) :
  NoDup (JsMap.keys
           (EncryptionSetupOperation.replay_entries
              (EncryptionSetupBuilder.buildOperation
                 (EncryptionSetupBuilder.new accountData rt0).1)
              (setAccountData_all (EncryptionSetupBuilder.new accountData rt0).1 ws
                 (EncryptionSetupBuilder.new accountData rt0).2)))
  ∧ JsMap.keys
      (EncryptionSetupOperation.replay_entries
         (EncryptionSetupBuilder.buildOperation (EncryptionSetupBuilder.new accountData rt0).1)
         (setAccountData_all (EncryptionSetupBuilder.new accountData rt0).1 ws
            (EncryptionSetupBuilder.new accountData rt0).2))
    = first_writes [] (JsMap.keys ws)
  ∧ (∀ t,
       JsMap.get
         (EncryptionSetupOperation.replay_entries
            (EncryptionSetupBuilder.buildOperation (EncryptionSetupBuilder.new accountData rt0).1)
            (setAccountData_all (EncryptionSetupBuilder.new accountData rt0).1 ws
               (EncryptionSetupBuilder.new accountData rt0).2)) t
       = JsMap.get (rev ws) t).
Proof.
  rewrite replay_entries_buildOperation, pending_setAccountData_all, new_builder_pending.
  split_and!.
  - apply (JsMap_fold_set_wf ws []). apply NoDup_nil_2.
  - by rewrite JsMap_fold_set_keys.
  - intros t. rewrite JsMap_fold_set_get. by destruct (JsMap.get (rev ws) t).
Qed.

(** ** Reads and writes of different types and of different builders *)

Lemma map_at_setAccountData_other a t c rt r :
  r ≠ AccountDataClientAdapter._values a →
  map_at (AccountDataClientAdapter.setAccountData a t c rt) r = map_at rt r.
Proof.
  intros Hne. unfold AccountDataClientAdapter.setAccountData, enqueue_microtask, map_at. simpl.
  by rewrite lookup_insert_ne.
Qed.

Lemma map_at_setAccountData_all_other b ws rt r :
  r ≠ AccountDataClientAdapter._values (EncryptionSetupBuilder.accountDataClientAdapter b) →
  map_at (setAccountData_all b ws rt) r = map_at rt r.
Proof.
  intros Hne. unfold setAccountData_all. revert rt.
  induction ws as [|[t c] ws IH]; intros rt; simpl; [done|].
  rewrite IH. by apply map_at_setAccountData_other.
Qed.

Lemma dom_maps_setAccountData_all b ws rt r :
  r ∈ dom (rt_maps rt) → r ∈ dom (rt_maps (setAccountData_all b ws rt)).
Proof.
  unfold setAccountData_all. revert rt.
  induction ws as [|[t c] ws IH]; intros rt Hr; simpl; [done|].
  apply IH. unfold EncryptionSetupBuilder.setAccountData,
    AccountDataClientAdapter.setAccountData, enqueue_microtask, Map_set. simpl.
  rewrite dom_insert. apply elem_of_union. by right.
Qed.

Lemma getAccountData_same_pending a t rt rt' :
  AccountDataClientAdapter.pending a rt' = AccountDataClientAdapter.pending a rt →
  AccountDataClientAdapter.getAccountData a t rt' = AccountDataClientAdapter.getAccountData a t rt.
Proof. intros Heq. by rewrite !getAccountData_unfold, Heq. Qed.

(** X2: a write of one type leaves the reads of every other type as they
    were, for [getAccountData] and for [getAccountDataFromServer]. *)
Theorem setAccountData_leaves_other_types
    (a : AccountDataClientAdapter.t) (rt : Runtime) (t t' : string) (c : JsValue) :
  t ≠ t' →
  AccountDataClientAdapter.getAccountData a t' (AccountDataClientAdapter.setAccountData a t c rt)
    = AccountDataClientAdapter.getAccountData a t' rt
  ∧ AccountDataClientAdapter.getAccountDataFromServer a t'
      (AccountDataClientAdapter.setAccountData a t c rt)
    = AccountDataClientAdapter.getAccountDataFromServer a t' rt
  ∧ JsMap.get (AccountDataClientAdapter.pending a
                 (AccountDataClientAdapter.setAccountData a t c rt)) t'
    = JsMap.get (AccountDataClientAdapter.pending a rt) t'.
Proof.
  intros Hne. unfold AccountDataClientAdapter.getAccountDataFromServer.
  rewrite !getAccountData_unfold, pending_setAccountData, JsMap_get_set_ne by done. done.
Qed.

(** Over [{"m.foo": {"a": 1}}], a write of "m.bar" leaves the read of
    "m.foo" at the pre-existing content. *)
Lemma setAccountData_leaves_other_types_witness :
  AccountDataClientAdapter.getAccountData adapter_foo "m.foo"
    (AccountDataClientAdapter.setAccountData adapter_foo "m.bar" (obj_b 9) runtime_foo)
  = Returns (obj_a 1).
Proof.
  assert ("m.bar" ≠ "m.foo") as Hne by discriminate.
  exact (proj1 (setAccountData_leaves_other_types adapter_foo runtime_foo "m.bar" "m.foo"
                  (obj_b 9) Hne)).
Defined.

(** X3: two builders never share a map of pending writes. When a second
    builder is constructed in the store that a first builder and its writes
    left, later writes through either of them leave the pending entries of
    the other, the entries its operation replays and its reads as they
    were; the second builder, in particular, still has nothing pending. *)
Theorem builders_do_not_share_pending_maps
    (acc1 acc2 : gmap string MatrixEvent) (rt0 : Runtime)
    (ws1 ws2 ws1' : list (string * JsValue)) :
  let b1 := (EncryptionSetupBuilder.new acc1 rt0).1 in
  let rt1 := setAccountData_all b1 ws1 (EncryptionSetupBuilder.new acc1 rt0).2 in
  let b2 := (EncryptionSetupBuilder.new acc2 rt1).1 in
  let rt2 := (EncryptionSetupBuilder.new acc2 rt1).2 in
  EncryptionSetupOperation.replay_entries (EncryptionSetupBuilder.buildOperation b1)
      (setAccountData_all b2 ws2 rt2)
    = EncryptionSetupOperation.replay_entries (EncryptionSetupBuilder.buildOperation b1) rt1
  ∧ (∀ t, AccountDataClientAdapter.getAccountData
            (EncryptionSetupBuilder.accountDataClientAdapter b1) t
            (setAccountData_all b2 ws2 rt2)
          = AccountDataClientAdapter.getAccountData
              (EncryptionSetupBuilder.accountDataClientAdapter b1) t rt1)
  ∧ EncryptionSetupOperation.replay_entries (EncryptionSetupBuilder.buildOperation b2)
      (setAccountData_all b1 ws1' rt2)
    = []
  ∧ (∀ t, AccountDataClientAdapter.getAccountData
            (EncryptionSetupBuilder.accountDataClientAdapter b2) t
            (setAccountData_all b1 ws1' rt2)
          = AccountDataClientAdapter.getAccountData
              (EncryptionSetupBuilder.accountDataClientAdapter b2) t rt2).
Proof.
  intros b1 rt1 b2 rt2.
  set (r1 := AccountDataClientAdapter._values (EncryptionSetupBuilder.accountDataClientAdapter b1)).
  set (r2 := AccountDataClientAdapter._values (EncryptionSetupBuilder.accountDataClientAdapter b2)).
  assert (r1 ∈ dom (rt_maps rt1)) as Hr1.
  { apply dom_maps_setAccountData_all. rewrite new_builder_maps.
    unfold r1, b1. rewrite new_builder_adapter. simpl.
    rewrite dom_insert. apply elem_of_union. left. by apply elem_of_singleton. }
  assert (r2 = fresh (dom (rt_maps rt1))) as Hr2.
  { unfold r2, b2. by rewrite new_builder_adapter. }
  assert (r2 ∉ dom (rt_maps rt1)) as Hfresh by (rewrite Hr2; apply is_fresh).
  assert (r1 ≠ r2) as Hne by (intros Heq; apply Hfresh; by rewrite <- Heq).
  assert (AccountDataClientAdapter.pending (EncryptionSetupBuilder.accountDataClientAdapter b1)
            (setAccountData_all b2 ws2 rt2)
          = AccountDataClientAdapter.pending (EncryptionSetupBuilder.accountDataClientAdapter b1)
              rt1) as Hp1.
  { unfold AccountDataClientAdapter.pending, JsMap.entries. fold r1.
    rewrite map_at_setAccountData_all_other by done.
    unfold map_at, rt2. rewrite new_builder_maps, <- Hr2. by rewrite lookup_insert_ne. }
  assert (AccountDataClientAdapter.pending (EncryptionSetupBuilder.accountDataClientAdapter b2)
            rt2 = []) as Hp2 by apply (new_builder_pending acc2 rt1).
  assert (AccountDataClientAdapter.pending (EncryptionSetupBuilder.accountDataClientAdapter b2)
            (setAccountData_all b1 ws1' rt2) = []) as Hp2'.
  { unfold AccountDataClientAdapter.pending, JsMap.entries. fold r2.
    rewrite map_at_setAccountData_all_other by done. exact Hp2. }
  rewrite !replay_entries_buildOperation. split_and!; [done | | done |].
  - intros t. by apply getAccountData_same_pending.
  - intros t. apply getAccountData_same_pending. by rewrite Hp2', Hp2.
Qed.

(** X4: a freshly constructed builder, whatever the store held before, has
    nothing pending: a read goes straight to the pre-existing data (the
    content of the entry of that type; with no such entry [null], or a
    [TypeError] at a name inherited from [Object.prototype]), the
    operation built from it holds [null] for the three key captures, and
    its [apply] fulfils without a single request. The constructor
    schedules nothing, delivers nothing and leaves the maps of the store
    as they were. *)
Theorem new_builder_is_empty
    {W : Type} (accountData : gmap string MatrixEvent) (rt0 : Runtime)
    (crypto : Crypto W) (s : NetState W) (t : string) :
  AccountDataClientAdapter.getAccountData
      (EncryptionSetupBuilder.accountDataClientAdapter
         (EncryptionSetupBuilder.new accountData rt0).1) t
      (EncryptionSetupBuilder.new accountData rt0).2
    = match accountData !! t with
      | Some ev => Returns (getContent ev)
      | None => if decide (t ∈ Object_prototype_names) then Throws JsTypeError
                else Returns JNull
      end
  ∧ EncryptionSetupOperation.apply
      (EncryptionSetupBuilder.buildOperation (EncryptionSetupBuilder.new accountData rt0).1)
      crypto (EncryptionSetupBuilder.new accountData rt0).2 s
    = (Fulfilled tt, s)
  ∧ EncryptionSetupBuilder.buildOperation (EncryptionSetupBuilder.new accountData rt0).1
    = EncryptionSetupOperation.new
        (Some (fresh (dom (rt_maps rt0)))) JNull JNull JNull
  ∧ rt_microtasks (EncryptionSetupBuilder.new accountData rt0).2 = rt_microtasks rt0
  ∧ rt_delivered (EncryptionSetupBuilder.new accountData rt0).2 = rt_delivered rt0
  ∧ (∀ r, r ∈ dom (rt_maps rt0) →
       map_at (EncryptionSetupBuilder.new accountData rt0).2 r = map_at rt0 r).
Proof.
  split_and!; try done.
  - rewrite getAccountData_unfold, new_builder_pending.
    unfold existing_content, Object_get. simpl.
    destruct (accountData !! t); [done|]. by destruct (decide (t ∈ Object_prototype_names)).
  - rewrite apply_unfold, replay_entries_buildOperation, new_builder_pending. done.
  - intros r Hr. unfold map_at. rewrite new_builder_maps.
    rewrite lookup_insert_ne; [done|]. intros <-. by apply (is_fresh (dom (rt_maps rt0))).
Qed.

(** X5: the overlay and the operation agree. With pairwise distinct
    pending types (which every run of writes on a new builder keeps), an
    entry that the operation replays with a truthy content is what a read
    of its type answers; and a read that answers anything but the
    pre-existing content answers the content of an entry that the
    operation replays. *)
Theorem reads_agree_with_replay
    (b : EncryptionSetupBuilder.t) (rt : Runtime) (t : string) (c : JsValue) :
  JsMap.wf (AccountDataClientAdapter.pending (EncryptionSetupBuilder.accountDataClientAdapter b) rt) →
  ((t, c) ∈ EncryptionSetupOperation.replay_entries (EncryptionSetupBuilder.buildOperation b) rt →
   truthy c = true →
   AccountDataClientAdapter.getAccountData (EncryptionSetupBuilder.accountDataClientAdapter b) t rt
   = Returns c)
  ∧ (AccountDataClientAdapter.getAccountData (EncryptionSetupBuilder.accountDataClientAdapter b) t rt
     = Returns c →
     Returns c ≠ existing_content (EncryptionSetupBuilder.accountDataClientAdapter b) t →
     (t, c) ∈ EncryptionSetupOperation.replay_entries (EncryptionSetupBuilder.buildOperation b) rt).
Proof.
  intros Hwf. rewrite replay_entries_buildOperation, getAccountData_unfold. split.
  - intros Hin Hc. by rewrite (JsMap_elem_of_get _ _ _ Hwf Hin), Hc.
  - destruct (JsMap.get _ t) as [c'|] eqn:Hget; [|congruence].
    destruct (truthy c'); [|congruence].
    intros [= ->] _. by apply JsMap_get_elem_of.
Qed.

Lemma reads_agree_with_replay_witness :
  AccountDataClientAdapter.getAccountData adapter_foo "m.foo"
    (setAccountData_all builder_foo [("m.foo", obj_a 2); ("m.bar", obj_b 9)] runtime_foo)
  = Returns (obj_a 2).
Proof.
  assert (JsMap.wf (AccountDataClientAdapter.pending
                      (EncryptionSetupBuilder.accountDataClientAdapter builder_foo)
                      (setAccountData_all builder_foo [("m.foo", obj_a 2); ("m.bar", obj_b 9)]
                         runtime_foo))) as Hwf.
  { vm_compute. apply NoDup_cons. split.
    - intros Hin. apply list_elem_of_singleton in Hin. discriminate.
    - apply NoDup_singleton. }
  apply (proj1 (reads_agree_with_replay builder_foo
                  (setAccountData_all builder_foo [("m.foo", obj_a 2); ("m.bar", obj_b 9)]
                     runtime_foo) "m.foo" (obj_a 2) Hwf)).
  - vm_compute. apply list_elem_of_here.
  - reflexivity.
Defined.

(** ** Who is notified of a write *)

(** What one whole turn on an adapter leaves, from an empty queue. *)
Lemma turn_effect a ops rt :
  rt_microtasks rt = [] →
  rt_microtasks (turn a ops rt) = []
  ∧ rt_emitters (turn a ops rt) = rt_emitters (run_sync a ops rt)
  ∧ listeners_at (turn a ops rt) (AccountDataClientAdapter._events a)
    = listeners_at rt (AccountDataClientAdapter._events a) ++ subscriptions_of ops
  ∧ rt_delivered (turn a ops rt)
    = rt_delivered rt
      ++ flat_map (fun w => map (fun l => (l, event_of w))
                              (listeners_at rt (AccountDataClientAdapter._events a)
                               ++ subscriptions_of ops))
           (writes_of ops).
Proof.
  intros Hempty.
  destruct (run_sync_effect a ops rt) as (Hq & HL & Hd & _).
  rewrite Hempty in Hq. simpl in Hq.
  destruct (run_microtasks_effect a _ _ Hq) as [Hq' Hd'].
  assert (rt_emitters (turn a ops rt) = rt_emitters (run_sync a ops rt)) as He.
  { unfold turn, run_microtasks.
    match goal with |- context [fold_left run_job ?js ?r] =>
      destruct (fold_run_job js r) as (He & _) end.
    by rewrite He. }
  split_and!; [done | done | | ].
  - unfold listeners_at at 1. rewrite He. exact HL.
  - unfold turn. by rewrite Hd', HL, Hd.
Qed.

Lemma deliveries_of_jobs_absent (l : Listener) (L : list Listener) (ws : list (string * JsValue)) :
  l ∉ L →
  filter (fun d : nat * MatrixEvent => d.1 = l)
    (flat_map (fun w => map (fun l' => (l', event_of w)) L) ws)
  = [].
Proof.
  intros HL. induction ws as [|w ws IH]; simpl; [done|].
  rewrite filter_app, IH, filter_listener_pairs, filter_listener_absent by done. done.
Qed.

(** X6: a listener is called for the writes of a turn only if it is
    registered on that adapter's emitter by the end of the turn's
    synchronous step. A listener that is not (one registered on another
    emitter, or not yet) is never called for them; and a listener that
    registers in a later turn is called for the writes of that later turn
    alone, not for the earlier ones. *)
Theorem setAccountData_notifies_registered_listeners_only
    (a : AccountDataClientAdapter.t) (rt : Runtime)
    (ops1 ops2 ops3 : list SyncOp) (l : Listener) :
  rt_microtasks rt = [] →
  l ∉ listeners_at rt (AccountDataClientAdapter._events a) →
  l ∉ subscriptions_of ops1 →
  l ∉ subscriptions_of ops2 →
  l ∉ subscriptions_of ops3 →
  deliveries_to l (turn a ops1 rt) = deliveries_to l rt
  ∧ deliveries_to l (turn a (ops2 ++ OpOn l :: ops3) (turn a ops1 rt))
    = deliveries_to l rt ++ map event_of (writes_of ops2 ++ writes_of ops3).
Proof.
  intros Hempty Hl H1 H2 H3.
  destruct (turn_effect a ops1 rt Hempty) as (Hq1 & _ & HL1 & Hd1).
  assert (deliveries_to l (turn a ops1 rt) = deliveries_to l rt) as Hfirst.
  { unfold deliveries_to. rewrite Hd1, filter_app, deliveries_of_jobs_absent.
    - by rewrite app_nil_r.
    - rewrite not_elem_of_app. done. }
  split; [done|].
  destruct (turn_effect a (ops2 ++ OpOn l :: ops3) (turn a ops1 rt) Hq1) as (_ & _ & _ & Hd2).
  unfold deliveries_to in *. rewrite Hd2, filter_app, fmap_app, Hfirst. f_equal.
  rewrite writes_of_app. simpl.
  apply deliveries_of_jobs.
  rewrite HL1, subscriptions_of_app. simpl.
  rewrite !filter_app, filter_cons_True by done.
  rewrite !filter_listener_absent by done. done.
Qed.

(** "m.foo" is written in a first turn; listener 7 registers in a second
    turn, in which "m.bar" is written: it is called for "m.bar" alone. *)
Lemma setAccountData_notifies_registered_listeners_only_witness :
  deliveries_to 7
    (turn adapter_empty ([] ++ OpOn 7 :: [OpSetAccountData "m.bar" (obj_b 9)])
       (turn adapter_empty [OpSetAccountData "m.foo" (obj_a 2)] runtime_empty))
  = [mkMatrixEvent "m.bar" (obj_b 9)].
Proof.
  assert (7 ∉ listeners_at runtime_empty (AccountDataClientAdapter._events adapter_empty)) as H0.
  { vm_compute. apply not_elem_of_nil. }
  assert (7 ∉ subscriptions_of [OpSetAccountData "m.foo" (obj_a 2)]) as H1.
  { apply not_elem_of_nil. }
  assert (7 ∉ subscriptions_of []) as H2.
  { apply not_elem_of_nil. }
  assert (7 ∉ subscriptions_of [OpSetAccountData "m.bar" (obj_b 9)]) as H3.
  { apply not_elem_of_nil. }
  exact (proj2 (setAccountData_notifies_registered_listeners_only adapter_empty runtime_empty
                  [OpSetAccountData "m.foo" (obj_a 2)] [] [OpSetAccountData "m.bar" (obj_b 9)] 7
                  eq_refl H0 H1 H2 H3)).
Defined.

(** ** Applying again after a rejection *)

(** X7: [apply] keeps no record of what it has sent. When an [apply] was
    rejected at the k-th entry and a second [apply] of the same operation
    fulfils, the second one sends every entry again, from the first:
    the entries before the k-th have then been sent twice. *)
Theorem apply_again_resends_every_entry
    {W : Type} (op : EncryptionSetupOperation.t) (crypto : Crypto W) (rt : Runtime)
    (s s1 : NetState W) (pre post : list (string * JsValue)) (t : string)
    (c reason : JsValue) (w2 : W) (u : unit) :
  EncryptionSetupOperation.replay_entries op rt = pre ++ (t, c) :: post →
  EncryptionSetupOperation.for_of_await (_baseApis crypto) pre s = (Fulfilled tt, s1) →
  MatrixClient.setAccountData (_baseApis crypto) t c (remote s1) = (Rejected reason, w2) →
  (EncryptionSetupOperation.apply op crypto rt
     (EncryptionSetupOperation.apply op crypto rt s).2).1 = Fulfilled u →
  (EncryptionSetupOperation.apply op crypto rt s).1 = Rejected reason
  ∧ issued_by (EncryptionSetupOperation.apply op crypto rt)
      (EncryptionSetupOperation.apply op crypto rt s).2
    = pre ++ (t, c) :: post
  ∧ calls (EncryptionSetupOperation.apply op crypto rt
             (EncryptionSetupOperation.apply op crypto rt s).2).2
    = calls s ++ (pre ++ [(t, c)]) ++ (pre ++ (t, c) :: post).
Proof.
  intros Hentries Hpre Hcall Hagain.
  destruct (for_of_await_fulfilled _ _ _ _ _ Hpre) as [Hcalls _].
  assert (EncryptionSetupOperation.apply op crypto rt s =
          (Rejected reason, {| remote := w2; calls := calls s ++ pre ++ [(t, c)] |})) as Hfirst.
  { rewrite apply_unfold, Hentries, for_of_await_app, Hpre. simpl.
    unfold net_await, MatrixClient.call_setAccountData. rewrite Hcall, Hcalls.
    by rewrite <- app_assoc. }
  rewrite Hfirst in *. simpl in *.
  pose proof (apply_fulfilled_issued op crypto rt _ u Hagain) as Hissued.
  rewrite Hentries in Hissued.
  split_and!; [done | done |].
  rewrite apply_unfold in *.
  destruct (for_of_await_issued (_baseApis crypto)
              (EncryptionSetupOperation.replay_entries op rt)
              {| remote := w2; calls := calls s ++ pre ++ [(t, c)] |})
    as (issued & Hc & _ & Hall).
  rewrite Hc. simpl. rewrite (Hall u Hagain), Hentries. by rewrite <- !app_assoc.
Qed.

(** Three entries, a client that rejects "m.b" once: the first [apply]
    stops at "m.b", the second sends all three, "m.a" for the second
    time. *)
Lemma apply_again_resends_every_entry_witness :
  calls
    (EncryptionSetupOperation.apply (EncryptionSetupBuilder.buildOperation builder_empty)
       (mkCrypto (flaky_client "m.b"))
       (setAccountData_all builder_empty
          [("m.a", obj_a 1); ("m.b", obj_a 2); ("m.c", obj_a 3)] runtime_empty)
       (EncryptionSetupOperation.apply (EncryptionSetupBuilder.buildOperation builder_empty)
          (mkCrypto (flaky_client "m.b"))
          (setAccountData_all builder_empty
             [("m.a", obj_a 1); ("m.b", obj_a 2); ("m.c", obj_a 3)] runtime_empty)
          (mkNetState (1, JsMap.empty) [])).2).2
  = [("m.a", obj_a 1); ("m.b", obj_a 2);
     ("m.a", obj_a 1); ("m.b", obj_a 2); ("m.c", obj_a 3)].
Proof.
  exact (proj2 (proj2 (apply_again_resends_every_entry
    (EncryptionSetupBuilder.buildOperation builder_empty)
    (mkCrypto (flaky_client "m.b"))
    (setAccountData_all builder_empty
       [("m.a", obj_a 1); ("m.b", obj_a 2); ("m.c", obj_a 3)] runtime_empty)
    (mkNetState (1, JsMap.empty) [])
    (mkNetState (1, [("m.a", obj_a 1)]) [("m.a", obj_a 1)])
    [("m.a", obj_a 1)] [("m.c", obj_a 3)] "m.b" (obj_a 2) (JStr "M_LIMIT_EXCEEDED")
    (0, [("m.a", obj_a 1)]) tt
    eq_refl eq_refl eq_refl eq_refl))).
Defined.

(** ** The cross-signing key store as a finite map *)

Lemma CrossSigningCallbacks_eq (x y : CrossSigningCallbacks.t) :
  CrossSigningCallbacks.privateKeys x = CrossSigningCallbacks.privateKeys y → x = y.
Proof. destruct x, y. simpl. by intros ->. Qed.

Lemma saveCrossSigningKeys_privateKeys cb (keys : gmap string PrivateKey) :
  CrossSigningCallbacks.privateKeys (CrossSigningCallbacks.saveCrossSigningKeys cb keys)
  = keys ∪ CrossSigningCallbacks.privateKeys cb.
Proof.
  apply map_eq. intros i. rewrite saveCrossSigningKeys_lookup, lookup_union.
  by destruct (keys !! i), (CrossSigningCallbacks.privateKeys cb !! i).
Qed.

(** X8: [saveCrossSigningKeys] merges its argument over the store, the
    argument winning where both hold a type. Saving an empty object
    changes nothing, two saves in a row amount to one save of the second
    argument merged over the first, and [storeCrossSigningKeyCache] is the
    save of a single type. *)
Theorem saveCrossSigningKeys_merges_over_store
    (cb : CrossSigningCallbacks.t) (keys keys1 keys2 : gmap string PrivateKey)
    (t : string) (k : PrivateKey) :
  CrossSigningCallbacks.privateKeys (CrossSigningCallbacks.saveCrossSigningKeys cb keys)
    = keys ∪ CrossSigningCallbacks.privateKeys cb
  ∧ CrossSigningCallbacks.saveCrossSigningKeys cb ∅ = cb
  ∧ CrossSigningCallbacks.saveCrossSigningKeys
      (CrossSigningCallbacks.saveCrossSigningKeys cb keys1) keys2
    = CrossSigningCallbacks.saveCrossSigningKeys cb (keys2 ∪ keys1)
  ∧ (CrossSigningCallbacks.storeCrossSigningKeyCache cb t k).2
    = CrossSigningCallbacks.saveCrossSigningKeys cb {[ t := k ]}.
Proof.
  split_and!.
  - apply saveCrossSigningKeys_privateKeys.
  - apply CrossSigningCallbacks_eq. rewrite saveCrossSigningKeys_privateKeys.
    apply (left_id_L ∅ (∪)).
  - apply CrossSigningCallbacks_eq. rewrite !saveCrossSigningKeys_privateKeys.
    apply (assoc_L (∪)).
  - apply CrossSigningCallbacks_eq. rewrite saveCrossSigningKeys_privateKeys. simpl.
    by rewrite insert_union_singleton_l.
Qed.

(** X9: a key stored through the cache shape replaces the one stored
    before for that type and leaves every other type as it was; a type
    that was never stored is answered with a fulfilled [undefined], never
    with a rejection. *)
Theorem storeCrossSigningKeyCache_overwrites_one_type
    (cb : CrossSigningCallbacks.t) (t t' : string) (k1 k2 : PrivateKey) (p : JsValue) :
  t ≠ t' →
  CrossSigningCallbacks.getCrossSigningKeyCache
      (CrossSigningCallbacks.storeCrossSigningKeyCache
         (CrossSigningCallbacks.storeCrossSigningKeyCache cb t k1).2 t k2).2 t p
    = Fulfilled (Some k2)
  ∧ CrossSigningCallbacks.getCrossSigningKeyCache
      (CrossSigningCallbacks.storeCrossSigningKeyCache cb t k1).2 t' p
    = CrossSigningCallbacks.getCrossSigningKeyCache cb t' p
  ∧ CrossSigningCallbacks.getCrossSigningKey
      (CrossSigningCallbacks.storeCrossSigningKeyCache cb t k1).2 t' p
    = CrossSigningCallbacks.getCrossSigningKey cb t' p
  ∧ CrossSigningCallbacks.getCrossSigningKey
      (CrossSigningCallbacks.storeCrossSigningKeyCache CrossSigningCallbacks.new t k1).2 t' p
    = Fulfilled None.
Proof.
  intros Hne.
  unfold CrossSigningCallbacks.getCrossSigningKeyCache, CrossSigningCallbacks.getCrossSigningKey,
    Promise_resolve. simpl.
  rewrite lookup_insert_eq, !lookup_insert_ne, lookup_empty by done. done.
Qed.

Lemma storeCrossSigningKeyCache_overwrites_one_type_witness :
  CrossSigningCallbacks.getCrossSigningKeyCache
    (CrossSigningCallbacks.storeCrossSigningKeyCache
       (CrossSigningCallbacks.storeCrossSigningKeyCache CrossSigningCallbacks.new
          "master" key_1).2 "master" key_2).2 "master" JUndefined
  = Fulfilled (Some key_2)
  ∧ CrossSigningCallbacks.getCrossSigningKey
      (CrossSigningCallbacks.storeCrossSigningKeyCache CrossSigningCallbacks.new
         "master" key_1).2 "self_signing" JUndefined
    = Fulfilled None.
Proof.
  assert ("master" ≠ "self_signing") as Hne by discriminate.
  pose proof (storeCrossSigningKeyCache_overwrites_one_type CrossSigningCallbacks.new
                "master" "self_signing" key_1 key_2 JUndefined Hne) as (H1 & _ & _ & H4).
  split; [exact H1 | exact H4].
Defined.

(** ** Adding secret-storage keys *)

Lemma getSecretStorageKey_loop_add_hit this keyId k pre post :
  (∀ id, id ∈ pre → SSSSCryptoCallbacks._privateKeys this !! id = None) →
  SSSSCryptoCallbacks.getSecretStorageKey_loop
    (SSSSCryptoCallbacks.addPrivateKey this keyId k) (pre ++ keyId :: post)
  = Some (keyId, k).
Proof.
  induction pre as [|id pre IH]; intros Hpre; simpl.
  - by rewrite lookup_insert_eq.
  - destruct (decide (keyId = id)) as [<-|Hne].
    + by rewrite lookup_insert_eq.
    + rewrite lookup_insert_ne by done.
      rewrite (Hpre id) by apply list_elem_of_here.
      apply IH. intros x Hx. apply Hpre. by apply list_elem_of_further.
Qed.

Lemma getSecretStorageKey_loop_add_later this keyId k pre post id key :
  keyId ∉ pre → id ≠ keyId →
  SSSSCryptoCallbacks.getSecretStorageKey_loop this (pre ++ id :: post) = Some (id, key) →
  SSSSCryptoCallbacks.getSecretStorageKey_loop
    (SSSSCryptoCallbacks.addPrivateKey this keyId k) (pre ++ id :: post)
  = Some (id, key).
Proof.
  intros Hnotin Hne. induction pre as [|x pre IH]; simpl.
  - rewrite lookup_insert_ne by done.
    destruct (SSSSCryptoCallbacks._privateKeys this !! id) as [v|] eqn:Hid; [done|].
    intros Hloop. apply getSecretStorageKey_loop_Some in Hloop as (_ & _ & _ & Hkey & _).
    congruence.
  - apply not_elem_of_cons in Hnotin as [Hx Hnotin].
    rewrite lookup_insert_ne by done.
    destruct (SSSSCryptoCallbacks._privateKeys this !! x); [done | by apply IH].
Qed.

(** X10: what [getSecretStorageKey] answers after [addPrivateKey]. A key
    added under an id that the descriptor does not list changes nothing.
    A key added under a listed id, when the store holds no key for any id
    listed before it, is what is answered, also when it replaces a key
    held under that id before. When the answer was the key of an id listed
    before the added one, it stays. An empty descriptor and an empty store
    answer nothing. *)
Theorem addPrivateKey_then_getSecretStorageKey
    (this : SSSSCryptoCallbacks.t) (keys : list (string * JsValue)) (name : string)
    (keyId : string) (k : PrivateKey) :
  (keyId ∉ Object_keys keys →
     SSSSCryptoCallbacks.getSecretStorageKey (SSSSCryptoCallbacks.addPrivateKey this keyId k)
       keys name
     = SSSSCryptoCallbacks.getSecretStorageKey this keys name)
  ∧ (∀ pre post,
       Object_keys keys = pre ++ keyId :: post →
       (∀ id, id ∈ pre → SSSSCryptoCallbacks._privateKeys this !! id = None) →
       SSSSCryptoCallbacks.getSecretStorageKey (SSSSCryptoCallbacks.addPrivateKey this keyId k)
         keys name
       = Some (keyId, k))
  ∧ (∀ pre post id key,
       Object_keys keys = pre ++ id :: post →
       keyId ∉ pre → id ≠ keyId →
       SSSSCryptoCallbacks.getSecretStorageKey this keys name = Some (id, key) →
       SSSSCryptoCallbacks.getSecretStorageKey (SSSSCryptoCallbacks.addPrivateKey this keyId k)
         keys name
       = Some (id, key))
  ∧ SSSSCryptoCallbacks.getSecretStorageKey this [] name = None
  ∧ SSSSCryptoCallbacks.getSecretStorageKey SSSSCryptoCallbacks.new keys name = None.
Proof.
  unfold SSSSCryptoCallbacks.getSecretStorageKey. split_and!.
  - generalize (Object_keys keys). intros ids Hnotin.
    induction ids as [|id ids IH]; simpl; [done|].
    apply not_elem_of_cons in Hnotin as [Hne Hnotin].
    rewrite lookup_insert_ne by done.
    destruct (SSSSCryptoCallbacks._privateKeys this !! id); [done | by apply IH].
  - intros pre post -> Hpre. by apply getSecretStorageKey_loop_add_hit.
  - intros pre post id key -> Hnotin Hne. by apply getSecretStorageKey_loop_add_later.
  - done.
  - apply getSecretStorageKey_loop_None. intros id _. apply lookup_empty.
Qed.

(** Over a store that holds a key for "keyId2" only and the descriptor
    ["keyId1", "keyId2"]: a key added for "keyId1" is answered from then
    on; a key added for "keyId3" leaves the answer at "keyId2". *)
Lemma addPrivateKey_then_getSecretStorageKey_witness :
  SSSSCryptoCallbacks.getSecretStorageKey
    (SSSSCryptoCallbacks.addPrivateKey ssss_keyId2 "keyId1" key_1)
    [("keyId1", JObj []); ("keyId2", JObj [])] "m.megolm_backup.v1"
  = Some ("keyId1", key_1)
  ∧ SSSSCryptoCallbacks.getSecretStorageKey
      (SSSSCryptoCallbacks.addPrivateKey ssss_keyId2 "keyId3" key_1)
      [("keyId1", JObj []); ("keyId2", JObj [])] "m.megolm_backup.v1"
    = Some ("keyId2", key_2).
Proof.
  split.
  - apply (proj1 (proj2 (addPrivateKey_then_getSecretStorageKey ssss_keyId2
                           [("keyId1", JObj []); ("keyId2", JObj [])] "m.megolm_backup.v1"
                           "keyId1" key_1)) [] ["keyId2"] eq_refl).
    intros id Hid. by apply elem_of_nil in Hid.
  - assert ("keyId3" ∉ Object_keys [("keyId1", JObj []); ("keyId2", JObj [])]) as Hnotin.
    { intros Hin. apply elem_of_cons in Hin as [Heq|Hin]; [discriminate|].
      apply list_elem_of_singleton in Hin. discriminate. }
    rewrite (proj1 (addPrivateKey_then_getSecretStorageKey ssss_keyId2
                      [("keyId1", JObj []); ("keyId2", JObj [])] "m.megolm_backup.v1"
                      "keyId3" key_1) Hnotin).
    reflexivity.
Defined.

(** ** The event mapper *)

(** X11: with [preventReEmit] set, the mapper attaches no re-emitter at
    all, whatever the event is. Without it (left out, or [false]), the
    last thing the mapper does for every event is to re-emit
    "Event.replaced" and "Event.visibilityChange", and it re-emits
    "Event.decrypted" exactly for the encrypted events. *)
Theorem eventMapperFor_preventReEmit
    (client : EventMapper.Client) (options : EventMapper.MapperOpts)
    (event : EventMapper.Event) :
  (EventMapper.preventReEmit options = Some true →
     ∀ id names,
       EventMapper.ReEmitter_reEmit id names ∉ EventMapper.eventMapperFor client options event)
  ∧ (EventMapper.preventReEmit options ≠ Some true →
       last (EventMapper.eventMapperFor client options event)
       = Some (EventMapper.ReEmitter_reEmit (EventMapper.getId event)
                 ["Event.replaced"; "Event.visibilityChange"])
       ∧ (EventMapper.ReEmitter_reEmit (EventMapper.getId event) ["Event.decrypted"]
            ∈ EventMapper.eventMapperFor client options event
          ↔ EventMapper.isEncrypted event = true)).
Proof.
  unfold EventMapper.eventMapperFor.
  destruct options as [p d], event as [id room_id root enc]. simpl.
  destruct (EventMapper.getRoom client room_id) as [room|];
    [destruct root; [destruct (EventMapper.threads room !! id)|]|];
    (split;
     [ intros -> id' names; simpl; destruct enc, (EventMapper.not_false d); simpl;
       rewrite ?elem_of_cons, ?elem_of_nil; naive_solver
     | intros Hp; assert (EventMapper.Boolean p = false) as ->
         by (destruct p as [[]|]; [congruence | done | done]);
       simpl; destruct enc, (EventMapper.not_false d); simpl;
       (split; [reflexivity|]);
       rewrite ?elem_of_cons, ?elem_of_nil; naive_solver ]).
Qed.

Lemma eventMapperFor_preventReEmit_witness :
  EventMapper.eventMapperFor (EventMapper.mkClient (fun _ => None))
    (EventMapper.mkMapperOpts (Some true) None)
    (EventMapper.mkEvent "$event" (Some "!room") false true)
  = [EventMapper.Client_decryptEventIfNeeded "$event"]
  ∧ last (EventMapper.eventMapperFor (EventMapper.mkClient (fun _ => None))
            (EventMapper.mkMapperOpts None None)
            (EventMapper.mkEvent "$event" (Some "!room") false false))
    = Some (EventMapper.ReEmitter_reEmit "$event" ["Event.replaced"; "Event.visibilityChange"]).
Proof.
  split; [reflexivity|].
  assert (EventMapper.preventReEmit (EventMapper.mkMapperOpts None None) ≠ Some true) as Hp
    by discriminate.
  exact (proj1 (proj2 (eventMapperFor_preventReEmit (EventMapper.mkClient (fun _ => None))
                         (EventMapper.mkMapperOpts None None)
                         (EventMapper.mkEvent "$event" (Some "!room") false false)) Hp)).
Defined.

(** X12: the mapper asks for decryption exactly when the event is
    encrypted and [decrypt] is not [false] (so also when the option is left
    out). When it both re-emits "Event.decrypted" and asks for decryption,
    the re-emitter is attached first, right before; only calls on the room
    and the thread come earlier. *)
Theorem eventMapperFor_decrypt
    (client : EventMapper.Client) (options : EventMapper.MapperOpts)
    (event : EventMapper.Event) :
  (EventMapper.Client_decryptEventIfNeeded (EventMapper.getId event)
     ∈ EventMapper.eventMapperFor client options event
   ↔ EventMapper.isEncrypted event = true ∧ EventMapper.decrypt options ≠ Some false)
  ∧ (EventMapper.isEncrypted event = true →
     EventMapper.decrypt options ≠ Some false →
     EventMapper.preventReEmit options ≠ Some true →
     ∃ pre post,
       EventMapper.eventMapperFor client options event
       = pre ++ EventMapper.ReEmitter_reEmit (EventMapper.getId event) ["Event.decrypted"]
             :: EventMapper.Client_decryptEventIfNeeded (EventMapper.getId event) :: post
       ∧ ∀ c, c ∈ pre → EventMapper.is_thread_call c = true).
Proof.
  unfold EventMapper.eventMapperFor.
  destruct options as [p d], event as [id room_id root enc]. simpl.
  set (thread_calls :=
         match EventMapper.getRoom client room_id with
         | Some room =>
             if root
             then match EventMapper.threads room !! id with
                  | Some thread =>
                      [EventMapper.Event_setThread id (EventMapper.ExistingThread thread)]
                  | None =>
                      [EventMapper.Room_createThread (EventMapper.roomId room) id;
                       EventMapper.Event_setThread id
                         (EventMapper.CreatedThread (EventMapper.roomId room) id)]
                  end
             else []
         | None => []
         end).
  assert (∀ c, c ∈ thread_calls → EventMapper.is_thread_call c = true) as Hthread.
  { intros c. unfold thread_calls.
    destruct (EventMapper.getRoom client room_id) as [room|];
      [destruct root; [destruct (EventMapper.threads room !! id)|]|];
      rewrite ?elem_of_cons, ?elem_of_nil; naive_solver. }
  split.
  - rewrite elem_of_app. split.
    + intros [Hin|Hin].
      * apply Hthread in Hin. done.
      * destruct enc, (EventMapper.Boolean p), d as [[]|]; simpl in Hin;
          rewrite ?elem_of_cons, ?elem_of_nil in Hin; naive_solver.
    + intros [-> Hd]. right.
      assert (EventMapper.not_false d = true) as -> by (destruct d as [[]|]; [done | congruence | done]).
      destruct (EventMapper.Boolean p); simpl; rewrite ?elem_of_cons; naive_solver.
  - intros -> Hd Hp.
    assert (EventMapper.not_false d = true) as -> by (destruct d as [[]|]; [done | congruence | done]).
    assert (EventMapper.Boolean p = false) as -> by (destruct p as [[]|]; [congruence | done | done]).
    simpl. eexists thread_calls, _. split; [reflexivity | exact Hthread].
Qed.

(** An encrypted event mapped with no options: the re-emitter of
    "Event.decrypted" is attached, then decryption is asked for. *)
Lemma eventMapperFor_decrypt_witness :
  EventMapper.eventMapperFor (EventMapper.mkClient (fun _ => None))
    (EventMapper.mkMapperOpts None None)
    (EventMapper.mkEvent "$event" (Some "!room") false true)
  = [EventMapper.ReEmitter_reEmit "$event" ["Event.decrypted"];
     EventMapper.Client_decryptEventIfNeeded "$event";
     EventMapper.ReEmitter_reEmit "$event" ["Event.replaced"; "Event.visibilityChange"]]
  ∧ EventMapper.Client_decryptEventIfNeeded "$event"
      ∈ EventMapper.eventMapperFor (EventMapper.mkClient (fun _ => None))
          (EventMapper.mkMapperOpts None None)
          (EventMapper.mkEvent "$event" (Some "!room") false true).
Proof.
  split; [reflexivity|].
  apply (proj1 (eventMapperFor_decrypt (EventMapper.mkClient (fun _ => None))
                  (EventMapper.mkMapperOpts None None)
                  (EventMapper.mkEvent "$event" (Some "!room") false true))).
  split; [reflexivity | discriminate].
Defined.

(** X13: the mapper touches threads only for a thread root in a room the
    client knows. There it hands the event the thread that the room holds
    for the event's id and creates none; it creates one, before handing it
    over, only when the room holds none. The options play no part. *)
Theorem eventMapperFor_threads
    (client : EventMapper.Client) (options : EventMapper.MapperOpts)
    (event : EventMapper.Event) :
  (EventMapper.getRoom client (EventMapper.getRoomId event) = None
   ∨ EventMapper.isThreadRoot event = false →
   ∀ c, c ∈ EventMapper.eventMapperFor client options event →
        EventMapper.is_thread_call c = false)
  ∧ (∀ room thread,
       EventMapper.getRoom client (EventMapper.getRoomId event) = Some room →
       EventMapper.isThreadRoot event = true →
       EventMapper.threads room !! EventMapper.getId event = Some thread →
       filter (fun c => EventMapper.is_thread_call c = true)
         (EventMapper.eventMapperFor client options event)
       = [EventMapper.Event_setThread (EventMapper.getId event)
            (EventMapper.ExistingThread thread)])
  ∧ (∀ room,
       EventMapper.getRoom client (EventMapper.getRoomId event) = Some room →
       EventMapper.isThreadRoot event = true →
       EventMapper.threads room !! EventMapper.getId event = None →
       filter (fun c => EventMapper.is_thread_call c = true)
         (EventMapper.eventMapperFor client options event)
       = [EventMapper.Room_createThread (EventMapper.roomId room) (EventMapper.getId event);
          EventMapper.Event_setThread (EventMapper.getId event)
            (EventMapper.CreatedThread (EventMapper.roomId room) (EventMapper.getId event))]).
Proof.
  unfold EventMapper.eventMapperFor.
  destruct options as [p d], event as [id room_id root enc]. simpl.
  split_and!.
  - intros Hno c.
    assert (match EventMapper.getRoom client room_id with
            | Some room =>
                if root
                then match EventMapper.threads room !! id with
                     | Some thread =>
                         [EventMapper.Event_setThread id (EventMapper.ExistingThread thread)]
                     | None =>
                         [EventMapper.Room_createThread (EventMapper.roomId room) id;
                          EventMapper.Event_setThread id
                            (EventMapper.CreatedThread (EventMapper.roomId room) id)]
                     end
                else []
            | None => []
            end = []) as ->.
    { destruct Hno as [-> | ->]; [done|]. by destruct (EventMapper.getRoom client room_id). }
    destruct enc, (EventMapper.Boolean p), (EventMapper.not_false d); simpl;
      rewrite ?elem_of_cons, ?elem_of_nil; naive_solver.
  - intros room thread -> -> ->.
    by destruct enc, (EventMapper.Boolean p), (EventMapper.not_false d).
  - intros room -> -> ->.
    by destruct enc, (EventMapper.Boolean p), (EventMapper.not_false d).
Qed.

(** A thread root in a room that holds thread 5 for it is handed that
    thread. *)
Lemma eventMapperFor_threads_witness :
  filter (fun c => EventMapper.is_thread_call c = true)
    (EventMapper.eventMapperFor
       (EventMapper.mkClient (fun _ => Some (EventMapper.mkRoom "!room" {[ "$root" := 5 ]})))
       (EventMapper.mkMapperOpts None (Some false))
       (EventMapper.mkEvent "$root" (Some "!room") true true))
  = [EventMapper.Event_setThread "$root" (EventMapper.ExistingThread 5)].
Proof.
  exact (proj1 (proj2 (eventMapperFor_threads
    (EventMapper.mkClient (fun _ => Some (EventMapper.mkRoom "!room" {[ "$root" := 5 ]})))
    (EventMapper.mkMapperOpts None (Some false))
    (EventMapper.mkEvent "$root" (Some "!room") true true)))
    (EventMapper.mkRoom "!room" {[ "$root" := 5 ]}) 5 eq_refl eq_refl eq_refl).
Defined.

(** ** The getters of a thread *)

Lemma threadReplies_app events1 events2 :
  Thread.threadReplies (events1 ++ events2)
  = Thread.threadReplies events1 ++ Thread.threadReplies events2.
Proof. unfold Thread.threadReplies. apply filter_app. Qed.

Lemma threadReplies_singleton e :
  Thread.threadReplies [e] = if Thread.isThreadRelation e then [e] else [].
Proof.
  unfold Thread.threadReplies. destruct (Thread.isThreadRelation e) eqn:He.
  - by rewrite filter_cons_True.
  - rewrite filter_cons_False; [done|]. by rewrite He.
Qed.

Lemma lastReply_split events e :
  Thread.lastReply events = Some e →
  Thread.isThreadRelation e = true
  ∧ ∃ pre post, events = pre ++ e :: post
                ∧ ∀ x, x ∈ post → Thread.isThreadRelation x = false.
Proof.
  unfold Thread.lastReply, Thread.last_element.
  induction events as [|x events IH] using rev_ind.
  - done.
  - rewrite threadReplies_app, threadReplies_singleton.
    destruct (Thread.isThreadRelation x) eqn:Hx.
    + rewrite last_snoc. intros [= <-]. split; [done|].
      exists events, []. split; [done|]. intros y Hy. by apply elem_of_nil in Hy.
    + rewrite app_nil_r. intros Hlast.
      destruct (IH Hlast) as (He & pre & post & -> & Hpost). split; [done|].
      exists pre, (post ++ [x]). split; [by rewrite <- app_assoc|].
      intros y [Hy|Hy]%elem_of_app; [by apply Hpost|].
      apply list_elem_of_singleton in Hy. by subst.
Qed.

(** X14: [lastReply] and [length] look at the thread relations of the
    timeline alone. [lastReply] is [undefined] exactly when [length] is 0;
    otherwise it is an event of the timeline that is a thread relation and
    that no thread relation follows. [length] never exceeds the number of
    events of the timeline. *)
Theorem Thread_lastReply_is_last_thread_relation (events : list Thread.Event) :
  (Thread.lastReply events = None ↔ Thread.length events = 0)
  ∧ (∀ e, Thread.lastReply events = Some e →
       Thread.isThreadRelation e = true
       ∧ ∃ pre post, events = pre ++ e :: post
                     ∧ ∀ x, x ∈ post → Thread.isThreadRelation x = false)
  ∧ (Thread.length events ≤ List.length events)%nat
  ∧ (Thread.length events = 0 ↔ ∀ x, x ∈ events → Thread.isThreadRelation x = false).
Proof.
  split_and!.
  - unfold Thread.lastReply, Thread.last_element, Thread.length.
    rewrite last_None. split; [by intros ->|]. apply nil_length_inv.
  - apply lastReply_split.
  - unfold Thread.length, Thread.threadReplies. apply length_filter.
  - unfold Thread.length, Thread.threadReplies. split.
    + intros Hlen x Hx. apply nil_length_inv in Hlen.
      destruct (Thread.isThreadRelation x) eqn:Hrel; [|done].
      assert (x ∈ filter (fun event => Thread.isThreadRelation event = true) events) as Hin
        by (by apply list_elem_of_filter).
      rewrite Hlen in Hin. by apply elem_of_nil in Hin.
    + intros Hall. induction events as [|x events IH]; [done|].
      rewrite filter_cons_False.
      * apply IH. intros y Hy. apply Hall. by apply list_elem_of_further.
      * rewrite (Hall x) by apply list_elem_of_here. done.
Qed.

(** A root, a reply and an annotation: the reply is the last reply. *)
Lemma Thread_lastReply_is_last_thread_relation_witness :
  Thread.isThreadRelation (Thread.mkEvent "$reply" "!room" true) = true
  ∧ ∃ pre post,
      [Thread.mkEvent "$root" "!room" false; Thread.mkEvent "$reply" "!room" true;
       Thread.mkEvent "$reaction" "!room" false]
      = pre ++ Thread.mkEvent "$reply" "!room" true :: post
      ∧ ∀ x, x ∈ post → Thread.isThreadRelation x = false.
Proof.
  exact (proj1 (proj2 (Thread_lastReply_is_last_thread_relation
    [Thread.mkEvent "$root" "!room" false; Thread.mkEvent "$reply" "!room" true;
     Thread.mkEvent "$reaction" "!room" false]))
    (Thread.mkEvent "$reply" "!room" true) eq_refl).
Defined.

(** X15: what the getters answer once one more event [e] stands at the
    end of the timeline. [replyToEvent] is [e]. When [e] is a thread
    relation, [length] grows by one and [lastReply] is [e]; otherwise both
    stay. [roomId] still is the room of the first event. On an empty
    timeline [replyToEvent] and [lastReply] are [undefined], [length] is 0
    and [roomId] throws. *)
Theorem Thread_getters_after_append (events : list Thread.Event) (e : Thread.Event) :
  Thread.replyToEvent (events ++ [e]) = Some e
  ∧ Thread.length (events ++ [e])
    = (Thread.length events + (if Thread.isThreadRelation e then 1 else 0))%nat
  ∧ Thread.lastReply (events ++ [e])
    = (if Thread.isThreadRelation e then Some e else Thread.lastReply events)
  ∧ Thread.roomId (events ++ [e])
    = inr (match events with
           | [] => Thread.getRoomId e
           | first :: _ => Thread.getRoomId first
           end)
  ∧ Thread.replyToEvent [] = None
  ∧ Thread.lastReply [] = None
  ∧ Thread.length [] = 0
  ∧ Thread.roomId [] = inl Thread.TypeError.
Proof.
  unfold Thread.replyToEvent, Thread.lastReply, Thread.length, Thread.last_element.
  rewrite threadReplies_app, threadReplies_singleton, last_snoc, length_app.
  split_and!; try done.
  - by destruct (Thread.isThreadRelation e).
  - destruct (Thread.isThreadRelation e); [by rewrite last_snoc | by rewrite app_nil_r].
  - by destruct events.
Qed.
